(** * Signaling relay and peer session manager of the video-chat application

    A shallow embedding of [server/index.js] (the socket.io relay with its
    in-memory room registry) and of [src/contexts/VideoContext.tsx] (the
    client reducer and the WebRTC session handlers), together with the
    properties of the specification that concern them.

    Both files exist in several revisions; the embedding follows the latest
    one (the relay with the ping settings and the [error] handler, the
    context with [isConnected] and the [socketRef]/[localStreamRef] refs). *)

From stdpp Require Import base strings list gmap pretty.
From Stdlib Require Import ZArith.

Set Default Proof Using "Type".

(** ** JavaScript [Map] objects keyed by strings

    A JavaScript [Map] iterates in insertion order, and [set] on a key that
    is present keeps the key's position.  [Array.from(room.values())]
    observes that order, so the inner maps of the registry are association
    lists without repeated keys. *)
Module JSMap.
Section JSMap.
Context {V : Type}.

Definition t := list (string * V).

Definition empty : t := [].

Fixpoint get (k : string) (m : t) : option V :=
  match m with
  | [] => None
  | (k', v) :: m' => if decide (k = k') then Some v else get k m'
  end.

Definition has (k : string) (m : t) : bool :=
  match get k m with Some _ => true | None => false end.

Fixpoint set (k : string) (v : V) (m : t) : t :=
  match m with
  | [] => [(k, v)]
  | (k', v') :: m' =>
      if decide (k = k') then (k, v) :: m' else (k', v') :: set k v m'
  end.

Fixpoint delete (k : string) (m : t) : t :=
  match m with
  | [] => []
  | (k', v') :: m' =>
      if decide (k = k') then delete k m' else (k', v') :: delete k m'
  end.

Definition size (m : t) : nat := length m.
Definition keys (m : t) : list string := m.*1.
Definition values (m : t) : list V := m.*2.
End JSMap.
Global Arguments t : clear implicits.
End JSMap.

(** ** Data on the wire *)

(** The participant record the relay stores and sends
    ([{ id, name, audioEnabled, videoEnabled }]). *)
Module Participant.
Record t := make {
  id : string;
  name : string;
  audioEnabled : bool;
  videoEnabled : bool
}.
Global Instance eq_dec : EqDecision t.
Proof. solve_decision. Defined.
End Participant.

(** [interface ChatMessage]; [timestamp] is a [Date], kept as its
    milliseconds since the epoch. *)
Module ChatMessage.
Record t := make {
  id : string;
  senderId : string;
  senderName : string;
  message : string;
  timestamp : Z
}.
Global Instance eq_dec : EqDecision t.
Proof. solve_decision. Defined.
End ChatMessage.

(** Session descriptions and ICE candidates are opaque to the relay. *)
Inductive RTCSdpType := SdpOffer | SdpAnswer.

Record RTCSessionDescriptionInit := {
  sdpType : RTCSdpType;
  sdp : string
}.

Definition RTCIceCandidateInit := string.

Global Instance RTCSdpType_eq_dec : EqDecision RTCSdpType.
Proof. solve_decision. Defined.
Global Instance RTCSessionDescriptionInit_eq_dec :
  EqDecision RTCSessionDescriptionInit.
Proof. solve_decision. Defined.

(** Events a client sends to the relay.  A toggle payload is a JavaScript
    object of which the handler's parameter pattern reads [roomId] and
    [audioEnabled] (or [videoEnabled]); [rest] holds whatever other
    properties the object carries. *)
Inductive Event :=
  | EvConnection
  | EvJoinRoom (roomId userName : string)
  | EvOffer (target : string) (offer : RTCSessionDescriptionInit)
  | EvAnswer (target : string) (answer : RTCSessionDescriptionInit)
  | EvIceCandidate (target : string) (candidate : RTCIceCandidateInit)
  | EvToggleAudio (roomId : string) (audioEnabled : bool)
      (rest : list (string * string))
  | EvToggleVideo (roomId : string) (videoEnabled : bool)
      (rest : list (string * string))
  | EvChatMessage (roomId : string) (message : ChatMessage.t)
  | EvDisconnect
  | EvLeaveRoom.

(** Events the relay sends to clients. *)
Inductive Message :=
  | MsgExistingParticipants (participants : list Participant.t)
  | MsgUserJoined (participant : Participant.t)
  | MsgUserLeft (userId : string)
  | MsgOffer (sender : string) (offer : RTCSessionDescriptionInit)
  | MsgAnswer (sender : string) (answer : RTCSessionDescriptionInit)
  | MsgIceCandidate (sender : string) (candidate : RTCIceCandidateInit)
  | MsgParticipantAudioToggle (participantId : string) (audioEnabled : bool)
  | MsgParticipantVideoToggle (participantId : string) (videoEnabled : bool)
  | MsgChatMessage (message : ChatMessage.t).

Global Instance Message_eq_dec : EqDecision Message.
Proof. solve_decision. Defined.

(** ** The relay: [server/index.js]

    Each handler of [io.on('connection', ..)] becomes a function from the
    relay's state to the next state and the events it emits, in order;
    Node runs one handler to its end before the next.  Room and connection
    ids are strings.  The [console.log] lines and the [error] handler,
    which only logs, are left out. *)
Module Server.

(** What a handler sends: [socket.emit(..)] goes to the handler's own
    connection, [socket.to(room).emit(..)] to the members of [room]
    other than that connection. *)
Inductive Emission :=
  | Emit (m : Message)
  | To (room : string) (m : Message).

Global Instance Emission_eq_dec : EqDecision Emission.
Proof. solve_decision. Defined.

(** The two properties the handlers store on the socket object; both are
    [undefined] until the first [join-room]. *)
Record Socket := {
  userName : option string;
  roomId : option string
}.

(** [rooms] is the registry ([const rooms = new Map()], a [Map] of
    [Map]s); [adapter] is socket.io's own room membership, changed by
    [socket.join], [socket.leave] and by a disconnect; [sockets] holds the
    connections that are open. *)
Record State := {
  rooms : gmap string (JSMap.t Participant.t);
  adapter : gmap string (gset string);
  sockets : gmap string Socket
}.

Definition init : State :=
  {| rooms := ∅; adapter := ∅; sockets := ∅ |}.

(** JavaScript truthiness of [socket.roomId]. *)
Definition truthy (v : option string) : bool :=
  match v with
  | Some r => bool_decide (r ≠ "")
  | None => false
  end.

Definition members (s : State) (room : string) : gset string :=
  adapter s !!! room.

Definition sio_join (sid room : string)
    (a : gmap string (gset string)) : gmap string (gset string) :=
  <[room := {[sid]} ∪ a !!! room]> a.

Definition sio_leave (sid room : string)
    (a : gmap string (gset string)) : gmap string (gset string) :=
  <[room := a !!! room ∖ {[sid]}]> a.

Definition sio_leave_all (sid : string)
    (a : gmap string (gset string)) : gmap string (gset string) :=
  (λ m, m ∖ {[sid]}) <$> a.

(** [io.on('connection', ..)]: socket.io puts every socket in the room
    named by its own id, which is what [socket.to(target)] of the
    offer/answer relay addresses. *)
Definition on_connection (sid : string) (s : State) : State :=
  {| rooms := rooms s;
     adapter := sio_join sid sid (adapter s);
     sockets :=
       <[sid := {| userName := None; roomId := None |}]> (sockets s) |}.

Definition newParticipant (sid userName : string) : Participant.t :=
  Participant.make sid userName true true.

Definition existingParticipants (sid : string)
    (room : JSMap.t Participant.t) : list Participant.t :=
  filter (λ p, Participant.id p ≠ sid) (JSMap.values room).

(** [socket.on('join-room', ({ roomId, userName }) => ..)] *)
Definition on_join_room (sid roomId userName : string) (s : State)
    : State * list Emission :=
  let adapter' := sio_join sid roomId (adapter s) in
  let sockets' :=
    <[sid := {| userName := Some userName; roomId := Some roomId |}]>
      (sockets s) in
  let rooms1 :=
    match rooms s !! roomId with
    | Some _ => rooms s
    | None => <[roomId := JSMap.empty]> (rooms s)
    end in
  let room := default JSMap.empty (rooms1 !! roomId) in
  let room' := JSMap.set sid (newParticipant sid userName) room in
  let existing := existingParticipants sid room' in
  ({| rooms := <[roomId := room']> rooms1;
      adapter := adapter';
      sockets := sockets' |},
   (if 0 <? length existing
    then [Emit (MsgExistingParticipants existing)]
    else [])
   ++ [To roomId (MsgUserJoined (newParticipant sid userName))]).

Definition on_offer (sid target : string)
    (offer : RTCSessionDescriptionInit) (s : State) : State * list Emission :=
  (s, [To target (MsgOffer sid offer)]).

Definition on_answer (sid target : string)
    (answer : RTCSessionDescriptionInit) (s : State) : State * list Emission :=
  (s, [To target (MsgAnswer sid answer)]).

Definition on_ice_candidate (sid target : string)
    (candidate : RTCIceCandidateInit) (s : State) : State * list Emission :=
  (s, [To target (MsgIceCandidate sid candidate)]).

Definition setAudioEnabled (b : bool) (p : Participant.t) : Participant.t :=
  Participant.make (Participant.id p) (Participant.name p)
    b (Participant.videoEnabled p).

Definition setVideoEnabled (b : bool) (p : Participant.t) : Participant.t :=
  Participant.make (Participant.id p) (Participant.name p)
    (Participant.audioEnabled p) b.

(** [socket.on('toggle-audio', ({ roomId, audioEnabled }) => ..)]: the
    participant object is changed in place, so it keeps its position in
    the room's map. *)
Definition on_toggle_audio (sid roomId : string) (audioEnabled : bool)
    (rest : list (string * string)) (s : State) : State * list Emission :=
  match rooms s !! roomId with
  | Some room =>
      match JSMap.get sid room with
      | Some participant =>
          ({| rooms :=
                <[roomId := JSMap.set sid
                    (setAudioEnabled audioEnabled participant) room]>
                  (rooms s);
              adapter := adapter s;
              sockets := sockets s |},
           [To roomId (MsgParticipantAudioToggle sid audioEnabled)])
      | None => (s, [])
      end
  | None => (s, [])
  end.

(** [socket.on('toggle-video', ({ roomId, videoEnabled }) => ..)] *)
Definition on_toggle_video (sid roomId : string) (videoEnabled : bool)
    (rest : list (string * string)) (s : State) : State * list Emission :=
  match rooms s !! roomId with
  | Some room =>
      match JSMap.get sid room with
      | Some participant =>
          ({| rooms :=
                <[roomId := JSMap.set sid
                    (setVideoEnabled videoEnabled participant) room]>
                  (rooms s);
              adapter := adapter s;
              sockets := sockets s |},
           [To roomId (MsgParticipantVideoToggle sid videoEnabled)])
      | None => (s, [])
      end
  | None => (s, [])
  end.

(** [socket.on('chat-message', ({ roomId, message }) => ..)] *)
Definition on_chat_message (sid roomId : string) (message : ChatMessage.t)
    (s : State) : State * list Emission :=
  (s, [To roomId (MsgChatMessage message)]).

(** The registry part shared by [disconnect] and [leave-room]:
    [room.delete(socket.id)], then [rooms.delete(..)] when
    [room.size === 0]. *)
Definition removeParticipant (sid r : string)
    (room : JSMap.t Participant.t)
    (m : gmap string (JSMap.t Participant.t))
    : gmap string (JSMap.t Participant.t) :=
  let room' := JSMap.delete sid room in
  if decide (JSMap.size room' = 0) then delete r m else <[r := room']> m.

(** The guard [socket.roomId && rooms.has(socket.roomId)] of both
    handlers: the room it lets through, if any. *)
Definition currentRoom (sock : Socket) (s : State)
    : option (string * JSMap.t Participant.t) :=
  if truthy (roomId sock) then
    r ← roomId sock; room ← rooms s !! r; Some (r, room)
  else None.

(** [socket.on('disconnect', (reason) => ..)].  socket.io has taken the
    socket out of every room of the adapter before the handler runs, and
    the socket is gone afterwards. *)
Definition on_disconnect (sid : string) (sock : Socket) (s : State)
    : State * list Emission :=
  let adapter' := sio_leave_all sid (adapter s) in
  let sockets' := delete sid (sockets s) in
  match currentRoom sock s with
  | Some (r, room) =>
      ({| rooms := removeParticipant sid r room (rooms s);
          adapter := adapter';
          sockets := sockets' |},
       [To r (MsgUserLeft sid)])
  | None =>
      ({| rooms := rooms s; adapter := adapter'; sockets := sockets' |}, [])
  end.

(** [socket.on('leave-room', () => ..)]: [socket.roomId] keeps its
    value. *)
Definition on_leave_room (sid : string) (sock : Socket) (s : State)
    : State * list Emission :=
  match currentRoom sock s with
  | Some (r, room) =>
      ({| rooms := removeParticipant sid r room (rooms s);
          adapter := sio_leave sid r (adapter s);
          sockets := sockets s |},
       [To r (MsgUserLeft sid)])
  | None => (s, [])
  end.

(** One event of connection [sid].  The handlers are registered when the
    connection opens, so an event of a connection that is not open runs
    no handler; socket ids are never reused, so neither does a second
    [connection] of an id that is open. *)
Definition handle (sid : string) (ev : Event) (s : State)
    : State * list Emission :=
  match sockets s !! sid with
  | None =>
      match ev with
      | EvConnection => (on_connection sid s, [])
      | _ => (s, [])
      end
  | Some sock =>
      match ev with
      | EvConnection => (s, [])
      | EvJoinRoom roomId userName => on_join_room sid roomId userName s
      | EvOffer target offer => on_offer sid target offer s
      | EvAnswer target answer => on_answer sid target answer s
      | EvIceCandidate target candidate =>
          on_ice_candidate sid target candidate s
      | EvToggleAudio roomId audioEnabled rest =>
          on_toggle_audio sid roomId audioEnabled rest s
      | EvToggleVideo roomId videoEnabled rest =>
          on_toggle_video sid roomId videoEnabled rest s
      | EvChatMessage roomId message => on_chat_message sid roomId message s
      | EvDisconnect => on_disconnect sid sock s
      | EvLeaveRoom => on_leave_room sid sock s
      end
  end.

(** The relay runs one handler to completion at a time. *)
Definition run (evs : list (string * Event)) : State :=
  foldl (λ s e, (handle e.1 e.2 s).1) init evs.

(** The connections an emission of connection [sid] reaches. *)
Definition recipients (s : State) (sid : string) (e : Emission)
    : gset string :=
  match e with
  | Emit _ => {[sid]}
  | To room _ => members s room ∖ {[sid]}
  end.

Definition payload (e : Emission) : Message :=
  match e with Emit m => m | To _ m => m end.

(** The participant map of a room; a room that is not in the registry
    has no participants. *)
Definition participantsOf (s : State) (r : string) : JSMap.t Participant.t :=
  default JSMap.empty (rooms s !! r).

End Server.

(** ** The join handler before the last revision

    [server/index.js] also holds the relay as it was one revision
    earlier.  Its [join-room] handler differs from [Server.on_join_room]
    in the two places the properties below turn on: it notifies the room
    before it answers the joiner, and it answers the joiner always. *)
Module EarlierServer.
Import Server.

Definition on_join_room (sid roomId userName : string) (s : State)
    : State * list Emission :=
  let rooms1 :=
    match rooms s !! roomId with
    | Some _ => rooms s
    | None => <[roomId := JSMap.empty]> (rooms s)
    end in
  let room := default JSMap.empty (rooms1 !! roomId) in
  let room' := JSMap.set sid (newParticipant sid userName) room in
  ({| rooms := <[roomId := room']> rooms1;
      adapter := sio_join sid roomId (adapter s);
      sockets :=
        <[sid := {| userName := Some userName; roomId := Some roomId |}]>
          (sockets s) |},
   [To roomId (MsgUserJoined (newParticipant sid userName));
    Emit (MsgExistingParticipants (existingParticipants sid room'))]).

End EarlierServer.

(** ** The client: [src/contexts/VideoContext.tsx]

    The reducer is a function as it stands.  The provider's functions
    read and write the reducer state and three refs, await the browser and
    catch what it throws, so they are written in a state monad with
    exceptions.  Each handler is taken as running to its end before the
    next event arrives; what the browser answers is a parameter. *)
Module Client.

(** *** The reducer *)

Inductive TrackKind := AudioKind | VideoKind.

(** A [MediaStreamTrack]: its [kind], its [enabled] flag and whether
    [stop()] has ended it. *)
Record MediaStreamTrack := {
  kind : TrackKind;
  enabled : bool;
  ended : bool
}.

Global Instance TrackKind_eq_dec : EqDecision TrackKind.
Proof. solve_decision. Defined.
Global Instance MediaStreamTrack_eq_dec : EqDecision MediaStreamTrack.
Proof. solve_decision. Defined.

(** A [MediaStream] is the list of its tracks ([getTracks()]).  Streams
    and tracks are shared objects; the writes of the reducer to the tracks
    are repeated on [localStreamRef.current] by [dispatch] below, which
    holds the same stream. *)
Definition MediaStream := list MediaStreamTrack.

(** [interface Participant] *)
Record Participant := {
  id : string;
  name : string;
  stream : option MediaStream;
  audioEnabled : bool;
  videoEnabled : bool
}.

(** A participant as it arrives from the relay: no [stream] property. *)
Definition fromWire (p : Participant.t) : Participant :=
  {| id := Participant.id p;
     name := Participant.name p;
     stream := None;
     audioEnabled := Participant.audioEnabled p;
     videoEnabled := Participant.videoEnabled p |}.

(** [Partial<Participant>]: a property is present or not, and a present
    [stream] may be [undefined]. *)
Record ParticipantUpdates := {
  u_id : option string;
  u_name : option string;
  u_stream : option (option MediaStream);
  u_audioEnabled : option bool;
  u_videoEnabled : option bool
}.

Definition noUpdates : ParticipantUpdates :=
  {| u_id := None; u_name := None; u_stream := None;
     u_audioEnabled := None; u_videoEnabled := None |}.

(** [{ ...p, ...updates }] *)
Definition applyUpdates (p : Participant) (u : ParticipantUpdates)
    : Participant :=
  {| id := default (id p) (u_id u);
     name := default (name p) (u_name u);
     stream := default (stream p) (u_stream u);
     audioEnabled := default (audioEnabled p) (u_audioEnabled u);
     videoEnabled := default (videoEnabled p) (u_videoEnabled u) |}.

(** The socket.io client object, known by the server URL it was made
    for. *)
Record Socket := { serverUrl : string }.

(** [interface VideoState] *)
Record VideoState := {
  localStream : option MediaStream;
  participants : list Participant;
  isAudioEnabled : bool;
  isVideoEnabled : bool;
  isScreenSharing : bool;
  roomId : option string;
  chatMessages : list ChatMessage.t;
  socket : option Socket;
  isConnected : bool
}.

(** [type VideoAction] *)
Inductive VideoAction :=
  | SET_LOCAL_STREAM (payload : option MediaStream)
  | TOGGLE_AUDIO
  | TOGGLE_VIDEO
  | TOGGLE_SCREEN_SHARE
  | SET_ROOM_ID (payload : string)
  | ADD_PARTICIPANT (payload : Participant)
  | REMOVE_PARTICIPANT (payload : string)
  | UPDATE_PARTICIPANT (target : string) (updates : ParticipantUpdates)
  | ADD_CHAT_MESSAGE (payload : ChatMessage.t)
  | DELETE_CHAT_MESSAGE (payload : string)
  | SET_SOCKET (payload : option Socket)
  | SET_CONNECTED (payload : bool)
  | CLEAR_ROOM.

Definition initialState : VideoState :=
  {| localStream := None;
     participants := [];
     isAudioEnabled := true;
     isVideoEnabled := true;
     isScreenSharing := false;
     roomId := None;
     chatMessages := [];
     socket := None;
     isConnected := false |}.

(** The spreads [{ ...state, field: value }] of the reducer. *)
Definition with_localStream (v : option MediaStream) (s : VideoState) :=
  {| localStream := v; participants := participants s;
     isAudioEnabled := isAudioEnabled s; isVideoEnabled := isVideoEnabled s;
     isScreenSharing := isScreenSharing s; roomId := roomId s;
     chatMessages := chatMessages s; socket := socket s;
     isConnected := isConnected s |}.

Definition with_participants (v : list Participant) (s : VideoState) :=
  {| localStream := localStream s; participants := v;
     isAudioEnabled := isAudioEnabled s; isVideoEnabled := isVideoEnabled s;
     isScreenSharing := isScreenSharing s; roomId := roomId s;
     chatMessages := chatMessages s; socket := socket s;
     isConnected := isConnected s |}.

Definition with_isAudioEnabled (v : bool) (s : VideoState) :=
  {| localStream := localStream s; participants := participants s;
     isAudioEnabled := v; isVideoEnabled := isVideoEnabled s;
     isScreenSharing := isScreenSharing s; roomId := roomId s;
     chatMessages := chatMessages s; socket := socket s;
     isConnected := isConnected s |}.

Definition with_isVideoEnabled (v : bool) (s : VideoState) :=
  {| localStream := localStream s; participants := participants s;
     isAudioEnabled := isAudioEnabled s; isVideoEnabled := v;
     isScreenSharing := isScreenSharing s; roomId := roomId s;
     chatMessages := chatMessages s; socket := socket s;
     isConnected := isConnected s |}.

Definition with_isScreenSharing (v : bool) (s : VideoState) :=
  {| localStream := localStream s; participants := participants s;
     isAudioEnabled := isAudioEnabled s; isVideoEnabled := isVideoEnabled s;
     isScreenSharing := v; roomId := roomId s;
     chatMessages := chatMessages s; socket := socket s;
     isConnected := isConnected s |}.

Definition with_roomId (v : option string) (s : VideoState) :=
  {| localStream := localStream s; participants := participants s;
     isAudioEnabled := isAudioEnabled s; isVideoEnabled := isVideoEnabled s;
     isScreenSharing := isScreenSharing s; roomId := v;
     chatMessages := chatMessages s; socket := socket s;
     isConnected := isConnected s |}.

Definition with_chatMessages (v : list ChatMessage.t) (s : VideoState) :=
  {| localStream := localStream s; participants := participants s;
     isAudioEnabled := isAudioEnabled s; isVideoEnabled := isVideoEnabled s;
     isScreenSharing := isScreenSharing s; roomId := roomId s;
     chatMessages := v; socket := socket s;
     isConnected := isConnected s |}.

Definition with_socket (v : option Socket) (s : VideoState) :=
  {| localStream := localStream s; participants := participants s;
     isAudioEnabled := isAudioEnabled s; isVideoEnabled := isVideoEnabled s;
     isScreenSharing := isScreenSharing s; roomId := roomId s;
     chatMessages := chatMessages s; socket := v;
     isConnected := isConnected s |}.

Definition with_isConnected (v : bool) (s : VideoState) :=
  {| localStream := localStream s; participants := participants s;
     isAudioEnabled := isAudioEnabled s; isVideoEnabled := isVideoEnabled s;
     isScreenSharing := isScreenSharing s; roomId := roomId s;
     chatMessages := chatMessages s; socket := socket s;
     isConnected := v |}.

(** [track.enabled = v] on the tracks of one kind. *)
Definition setEnabled (k : TrackKind) (v : bool) (ms : MediaStream)
    : MediaStream :=
  (λ t, match k, kind t with
        | AudioKind, AudioKind | VideoKind, VideoKind =>
            {| kind := kind t; enabled := v; ended := ended t |}
        | _, _ => t
        end) <$> ms.

(** What an action writes to the tracks of the local stream. *)
Definition trackWrites (state : VideoState) (action : VideoAction)
    : MediaStream → MediaStream :=
  match action with
  | TOGGLE_AUDIO => setEnabled AudioKind (negb (isAudioEnabled state))
  | TOGGLE_VIDEO => setEnabled VideoKind (negb (isVideoEnabled state))
  | _ => λ ms, ms
  end.

(** [const videoReducer = (state, action) => ..] *)
Definition videoReducer (state : VideoState) (action : VideoAction)
    : VideoState :=
  match action with
  | SET_LOCAL_STREAM payload => with_localStream payload state
  | TOGGLE_AUDIO =>
      let newAudioState := negb (isAudioEnabled state) in
      with_isAudioEnabled newAudioState
        (with_localStream (trackWrites state action <$> localStream state)
           state)
  | TOGGLE_VIDEO =>
      let newVideoState := negb (isVideoEnabled state) in
      with_isVideoEnabled newVideoState
        (with_localStream (trackWrites state action <$> localStream state)
           state)
  | TOGGLE_SCREEN_SHARE =>
      with_isScreenSharing (negb (isScreenSharing state)) state
  | SET_ROOM_ID payload => with_roomId (Some payload) state
  | ADD_PARTICIPANT payload =>
      with_participants (participants state ++ [payload]) state
  | REMOVE_PARTICIPANT payload =>
      with_participants (filter (λ p, id p ≠ payload) (participants state))
        state
  | UPDATE_PARTICIPANT target updates =>
      with_participants
        ((λ p, if decide (id p = target) then applyUpdates p updates else p)
           <$> participants state)
        state
  | ADD_CHAT_MESSAGE payload =>
      with_chatMessages (chatMessages state ++ [payload]) state
  | DELETE_CHAT_MESSAGE payload =>
      with_chatMessages
        (filter (λ msg, ChatMessage.id msg ≠ payload) (chatMessages state))
        state
  | SET_SOCKET payload => with_socket payload state
  | SET_CONNECTED payload => with_isConnected payload state
  | CLEAR_ROOM => with_socket (socket state) initialState
  end.

(** *** Peer connections and the browser *)

Inductive RTCSignalingState :=
  | SigStable | SigHaveLocalOffer | SigHaveRemoteOffer | SigClosed.

Inductive RTCPeerConnectionState :=
  | ConnNew | ConnConnecting | ConnConnected | ConnDisconnected
  | ConnFailed | ConnClosed.

Global Instance RTCSignalingState_eq_dec : EqDecision RTCSignalingState.
Proof. solve_decision. Defined.
Global Instance RTCPeerConnectionState_eq_dec :
  EqDecision RTCPeerConnectionState.
Proof. solve_decision. Defined.

(** The part of an [RTCPeerConnection] the handlers read or change;
    [senders] are the local tracks it sends. *)
Record RTCPeerConnection := {
  signalingState : RTCSignalingState;
  connectionState : RTCPeerConnectionState;
  localDescription : option RTCSessionDescriptionInit;
  remoteDescription : option RTCSessionDescriptionInit;
  senders : list MediaStreamTrack;
  remoteCandidates : list RTCIceCandidateInit
}.

(** [new RTCPeerConnection(rtcConfig)] *)
Definition newRTCPeerConnection : RTCPeerConnection :=
  {| signalingState := SigStable; connectionState := ConnNew;
     localDescription := None; remoteDescription := None;
     senders := []; remoteCandidates := [] |}.

(** [pc.close()] *)
Definition close (pc : RTCPeerConnection) : RTCPeerConnection :=
  {| signalingState := SigClosed; connectionState := ConnClosed;
     localDescription := localDescription pc;
     remoteDescription := remoteDescription pc;
     senders := senders pc; remoteCandidates := remoteCandidates pc |}.

Definition with_senders (v : list MediaStreamTrack) (pc : RTCPeerConnection)
    : RTCPeerConnection :=
  {| signalingState := signalingState pc;
     connectionState := connectionState pc;
     localDescription := localDescription pc;
     remoteDescription := remoteDescription pc;
     senders := v; remoteCandidates := remoteCandidates pc |}.

(** What the handlers ask of the browser.  For a promise they await,
    [None] is a rejection and [Some] the value it resolves to (for the
    setters, the connection as the call leaves it).  Which calls a browser
    fulfils is not this program's to decide, so the handlers take the
    browser as a parameter. *)
Record Browser := {
  (** whether [new RTCPeerConnection(rtcConfig)] returns or throws *)
  constructs : bool;
  createOffer : RTCPeerConnection → option RTCSessionDescriptionInit;
  createAnswer : RTCPeerConnection → option RTCSessionDescriptionInit;
  setLocalDescription :
    RTCPeerConnection → RTCSessionDescriptionInit →
    option RTCPeerConnection;
  setRemoteDescription :
    RTCPeerConnection → RTCSessionDescriptionInit →
    option RTCPeerConnection;
  addIceCandidate :
    RTCPeerConnection → RTCIceCandidateInit → option RTCPeerConnection;
  (** [getUserMedia]: [true] asks with the preferred constraints, [false]
      with [{ video: true, audio: true }]. *)
  getUserMedia : bool → option MediaStream;
  getDisplayMedia : option MediaStream
}.

(** *** The provider's state and its effects *)

(** What the provider writes with [console.log] when it gives up on
    something, and with [console.error] in its [catch] blocks
    ([FallbackMediaAccessFailed] comes with an [alert]).  The lines that
    only report progress are left out. *)
Inductive LogEntry :=
  | NoValidPeerConnection (senderId : string)
  | ErrorCreatingPeerConnection (participantId : string)
  | ErrorCreatingOffer (participantId : string)
  | ErrorHandlingOffer (senderId : string)
  | ErrorHandlingAnswer (senderId : string)
  | ErrorAddingIceCandidate (senderId : string)
  | ErrorUpdatingStream (participantId : string)
  | ErrorAccessingMedia
  | FallbackMediaAccessFailed
  | ErrorSharingScreen
  | SocketNotAvailable.

(** The reducer state, the three refs, and what has left the provider:
    [outbox] holds the events emitted on the socket, oldest first (a
    [connect()] call shows as [EvConnection]); [console] the entries
    above; [location] the page navigated to by
    [window.location.href = ..].  [socketConnected] is the socket's
    [connected] property. *)
Record ClientState := {
  state : VideoState;
  peerConnections : JSMap.t RTCPeerConnection;
  localStreamRef : option MediaStream;
  socketRef : option Socket;
  socketConnected : bool;
  outbox : list Event;
  console : list LogEntry;
  location : option string
}.

Definition initialClient : ClientState :=
  {| state := initialState; peerConnections := JSMap.empty;
     localStreamRef := None; socketRef := None; socketConnected := false;
     outbox := []; console := []; location := None |}.

Definition with_state (v : VideoState) (cs : ClientState) :=
  {| state := v; peerConnections := peerConnections cs;
     localStreamRef := localStreamRef cs; socketRef := socketRef cs;
     socketConnected := socketConnected cs; outbox := outbox cs;
     console := console cs; location := location cs |}.

Definition with_peerConnections (v : JSMap.t RTCPeerConnection)
    (cs : ClientState) :=
  {| state := state cs; peerConnections := v;
     localStreamRef := localStreamRef cs; socketRef := socketRef cs;
     socketConnected := socketConnected cs; outbox := outbox cs;
     console := console cs; location := location cs |}.

Definition with_localStreamRef (v : option MediaStream) (cs : ClientState) :=
  {| state := state cs; peerConnections := peerConnections cs;
     localStreamRef := v; socketRef := socketRef cs;
     socketConnected := socketConnected cs; outbox := outbox cs;
     console := console cs; location := location cs |}.

Definition with_socketRef (v : option Socket) (cs : ClientState) :=
  {| state := state cs; peerConnections := peerConnections cs;
     localStreamRef := localStreamRef cs; socketRef := v;
     socketConnected := socketConnected cs; outbox := outbox cs;
     console := console cs; location := location cs |}.

Definition with_outbox (v : list Event) (cs : ClientState) :=
  {| state := state cs; peerConnections := peerConnections cs;
     localStreamRef := localStreamRef cs; socketRef := socketRef cs;
     socketConnected := socketConnected cs; outbox := v;
     console := console cs; location := location cs |}.

Definition with_console (v : list LogEntry) (cs : ClientState) :=
  {| state := state cs; peerConnections := peerConnections cs;
     localStreamRef := localStreamRef cs; socketRef := socketRef cs;
     socketConnected := socketConnected cs; outbox := outbox cs;
     console := v; location := location cs |}.

Definition with_location (v : option string) (cs : ClientState) :=
  {| state := state cs; peerConnections := peerConnections cs;
     localStreamRef := localStreamRef cs; socketRef := socketRef cs;
     socketConnected := socketConnected cs; outbox := outbox cs;
     console := console cs; location := v |}.

(** A handler either returns or throws; what it did to the state before
    throwing stays done. *)
Inductive Outcome (A : Type) :=
  | Returned (a : A)
  | Thrown.
Global Arguments Returned {A} a.
Global Arguments Thrown {A}.

Definition M (A : Type) : Type := ClientState → Outcome A * ClientState.

Global Instance M_ret : MRet M := λ A a cs, (Returned a, cs).

Global Instance M_bind : MBind M := λ A B f m cs,
  match m cs with
  | (Returned a, cs') => f a cs'
  | (Thrown, cs') => (Thrown, cs')
  end.

Definition throw {A} : M A := λ cs, (Thrown, cs).

(** [try { body } catch (error) { handler }] *)
Definition try_catch (body handler : M unit) : M unit := λ cs,
  match body cs with
  | (Returned _, cs') => (Returned (), cs')
  | (Thrown, cs') => handler cs'
  end.

(** [await promise] *)
Definition await {A} (promise : option A) : M A :=
  match promise with
  | Some a => mret a
  | None => throw
  end.

Definition gets {A} (f : ClientState → A) : M A :=
  λ cs, (Returned (f cs), cs).

Definition modify (f : ClientState → ClientState) : M unit :=
  λ cs, (Returned (), f cs).

Definition when (b : bool) (m : M unit) : M unit :=
  if b then m else mret ().

Fixpoint forEach {A} (l : list A) (f : A → M unit) : M unit :=
  match l with
  | [] => mret ()
  | x :: l' => f x ;; forEach l' f
  end.

Definition log (e : LogEntry) : M unit :=
  modify (λ cs, with_console (console cs ++ [e]) cs).

(** [socketRef.current.emit(..)] *)
Definition emit (ev : Event) : M unit :=
  modify (λ cs, with_outbox (outbox cs ++ [ev]) cs).

(** [dispatch(action)]: the reducer, and its writes to the tracks seen
    through the ref as well. *)
Definition dispatch (action : VideoAction) : M unit :=
  modify (λ cs,
    with_localStreamRef (trackWrites (state cs) action <$> localStreamRef cs)
      (with_state (videoReducer (state cs) action) cs)).

(** [peerConnections.current.set(participantId, pc)], also used to store
    what a call has done to the connection object kept under that key. *)
Definition setPeerConnection (participantId : string)
    (pc : RTCPeerConnection) : M unit :=
  modify (λ cs,
    with_peerConnections
      (JSMap.set participantId pc (peerConnections cs)) cs).

Definition isSome {A} (o : option A) : bool :=
  match o with Some _ => true | None => false end.

(** JavaScript truthiness of [state.roomId]. *)
Definition truthy (v : option string) : bool :=
  match v with
  | Some r => bool_decide (r ≠ "")
  | None => false
  end.

(** [initializeSocket], up to the handlers it registers. *)
Definition initializeSocket (serverUrl : string) : M unit :=
  let socket := {| serverUrl := serverUrl |} in
  modify (with_socketRef (Some socket)) ;;
  dispatch (SET_SOCKET (Some socket)).

(** [socket.on('connect', ..)]; [disconnect] and [connect_error] both
    run [on_disconnected]. *)
Definition on_connect : M unit :=
  dispatch (SET_CONNECTED true).

Definition on_disconnected : M unit :=
  dispatch (SET_CONNECTED false).

Section Handlers.
Context (browser : Browser).

(** [createAndSendOffer] *)
Definition createAndSendOffer (participantId : string)
    (peerConnection : RTCPeerConnection) : M unit :=
  try_catch
    (offer ← await (createOffer browser peerConnection);
     pc ← await (setLocalDescription browser peerConnection offer);
     setPeerConnection participantId pc ;;
     sock ← gets socketRef;
     when (isSome sock) (emit (EvOffer participantId offer)))
    (log (ErrorCreatingOffer participantId)).

(** [createPeerConnection].  Of the callbacks it installs on the
    connection, [ontrack] and [onicecandidate] follow below; the two state
    callbacks log, and [restartIce()] on a failed connection changes
    nothing the handlers read. *)
Definition createPeerConnection (participantId : string)
    (shouldCreateOffer : bool) : M unit :=
  try_catch
    (when (negb (constructs browser)) throw ;;
     ls ← gets localStreamRef;
     let peerConnection :=
       with_senders (default [] ls) newRTCPeerConnection in
     setPeerConnection participantId peerConnection ;;
     when shouldCreateOffer
       (createAndSendOffer participantId peerConnection))
    (log (ErrorCreatingPeerConnection participantId)).

(** [peerConnection.ontrack] *)
Definition ontrack (participantId : string)
    (streams : list MediaStream) : M unit :=
  dispatch (UPDATE_PARTICIPANT participantId
    {| u_id := None; u_name := None; u_stream := Some (head streams);
       u_audioEnabled := None; u_videoEnabled := None |}).

(** [peerConnection.onicecandidate] *)
Definition onicecandidate (participantId : string)
    (candidate : option RTCIceCandidateInit) : M unit :=
  sock ← gets socketRef;
  match candidate with
  | Some c => when (isSome sock) (emit (EvIceCandidate participantId c))
  | None => mret ()
  end.

(** [handleOffer] *)
Definition handleOffer (senderId : string)
    (offer : RTCSessionDescriptionInit) : M unit :=
  try_catch
    (pcs ← gets peerConnections;
     match JSMap.get senderId pcs with
     | None => log (NoValidPeerConnection senderId)
     | Some peerConnection =>
         if decide (signalingState peerConnection = SigClosed)
         then log (NoValidPeerConnection senderId)
         else
           pc1 ← await (setRemoteDescription browser peerConnection offer);
           setPeerConnection senderId pc1 ;;
           answer ← await (createAnswer browser pc1);
           pc2 ← await (setLocalDescription browser pc1 answer);
           setPeerConnection senderId pc2 ;;
           sock ← gets socketRef;
           when (isSome sock) (emit (EvAnswer senderId answer))
     end)
    (log (ErrorHandlingOffer senderId)).

(** [handleAnswer] *)
Definition handleAnswer (senderId : string)
    (answer : RTCSessionDescriptionInit) : M unit :=
  try_catch
    (pcs ← gets peerConnections;
     match JSMap.get senderId pcs with
     | None => log (NoValidPeerConnection senderId)
     | Some peerConnection =>
         if decide (signalingState peerConnection = SigClosed)
         then log (NoValidPeerConnection senderId)
         else
           pc ← await (setRemoteDescription browser peerConnection answer);
           setPeerConnection senderId pc
     end)
    (log (ErrorHandlingAnswer senderId)).

(** [handleIceCandidate] *)
Definition handleIceCandidate (senderId : string)
    (candidate : RTCIceCandidateInit) : M unit :=
  try_catch
    (pcs ← gets peerConnections;
     match JSMap.get senderId pcs with
     | None => mret ()
     | Some peerConnection =>
         if decide (connectionState peerConnection = ConnClosed)
         then mret ()
         else
           pc ← await (addIceCandidate browser peerConnection candidate);
           setPeerConnection senderId pc
     end)
    (log (ErrorAddingIceCandidate senderId)).

(** [socket.on('existing-participants', ..)] *)
Definition on_existing_participants (ps : list Participant.t) : M unit :=
  forEach ps (λ participant,
    dispatch (ADD_PARTICIPANT (fromWire participant)) ;;
    createPeerConnection (Participant.id participant) true).

(** [socket.on('user-joined', ..)] *)
Definition on_user_joined (participant : Participant.t) : M unit :=
  dispatch (ADD_PARTICIPANT (fromWire participant)) ;;
  createPeerConnection (Participant.id participant) false.

(** [socket.on('user-left', ..)] *)
Definition on_user_left (userId : string) : M unit :=
  dispatch (REMOVE_PARTICIPANT userId) ;;
  modify (λ cs,
    with_peerConnections (JSMap.delete userId (peerConnections cs)) cs).

(** The handlers [initializeSocket] registers for the relay's events; each
    runs to its end before the next event is taken. *)
Definition receive (m : Message) : M unit :=
  match m with
  | MsgExistingParticipants ps => on_existing_participants ps
  | MsgUserJoined p => on_user_joined p
  | MsgUserLeft userId => on_user_left userId
  | MsgOffer sender offer => handleOffer sender offer
  | MsgAnswer sender answer => handleAnswer sender answer
  | MsgIceCandidate sender candidate => handleIceCandidate sender candidate
  | MsgParticipantAudioToggle participantId audioEnabled =>
      dispatch (UPDATE_PARTICIPANT participantId
        {| u_id := None; u_name := None; u_stream := None;
           u_audioEnabled := Some audioEnabled; u_videoEnabled := None |})
  | MsgParticipantVideoToggle participantId videoEnabled =>
      dispatch (UPDATE_PARTICIPANT participantId
        {| u_id := None; u_name := None; u_stream := None;
           u_audioEnabled := None; u_videoEnabled := Some videoEnabled |})
  | MsgChatMessage message => dispatch (ADD_CHAT_MESSAGE message)
  end.

(** [initializeMedia] *)
Definition initializeMedia : M unit :=
  try_catch
    (stream ← await (getUserMedia browser true);
     modify (with_localStreamRef (Some stream)) ;;
     dispatch (SET_LOCAL_STREAM (Some stream)))
    (log ErrorAccessingMedia ;;
     try_catch
       (fallbackStream ← await (getUserMedia browser false);
        modify (with_localStreamRef (Some fallbackStream)) ;;
        dispatch (SET_LOCAL_STREAM (Some fallbackStream)))
       (log FallbackMediaAccessFailed)).

(** [joinRoom] *)
Definition joinRoom (roomId userName : string) : M unit :=
  sock ← gets socketRef;
  if isSome sock then
    connected ← gets socketConnected;
    when (negb connected) (emit EvConnection) ;;
    emit (EvJoinRoom roomId userName) ;;
    dispatch (SET_ROOM_ID roomId)
  else log SocketNotAvailable.

(** [leaveRoom]: the connections it closes and the tracks it stops are
    let go of in the same call (the map is cleared, the ref and, by
    [CLEAR_ROOM], [state.localStream] are set to [null]). *)
Definition leaveRoom : M unit :=
  sock ← gets socketRef;
  room ← gets (λ cs, roomId (state cs));
  when (isSome sock && truthy room) (emit EvLeaveRoom) ;;
  modify (with_peerConnections JSMap.empty) ;;
  modify (with_localStreamRef None) ;;
  dispatch CLEAR_ROOM ;;
  modify (with_location (Some "/dashboard")).

(** [sendChatMessage]; [now] is what [Date.now()] returns and [date] the
    time of [new Date()]. *)
Definition sendChatMessage (message : string) (now date : Z) : M unit :=
  sock ← gets socketRef;
  room ← gets (λ cs, roomId (state cs));
  match room with
  | Some r =>
      when (isSome sock && truthy room)
        (let chatMessage :=
           ChatMessage.make (pretty now) "current-user" "You" message date in
         emit (EvChatMessage r chatMessage) ;;
         dispatch (ADD_CHAT_MESSAGE chatMessage))
  | None => mret ()
  end.

(** [deleteChatMessage] *)
Definition deleteChatMessage (id : string) : M unit :=
  dispatch (DELETE_CHAT_MESSAGE id).

(** One round of the [forEach] of [updatePeerConnectionStreams]:
    [removeTrack] and [addTrack] throw on a closed connection. *)
Definition updateStream (stream : MediaStream)
    (entry : string * RTCPeerConnection) : M unit :=
  let '(participantId, peerConnection) := entry in
  try_catch
    (when (bool_decide (signalingState peerConnection = SigClosed)
           && negb (bool_decide (senders peerConnection = [] ∧ stream = [])))
       throw ;;
     let pc := with_senders stream peerConnection in
     setPeerConnection participantId pc ;;
     createAndSendOffer participantId pc)
    (log (ErrorUpdatingStream participantId)).

(** [updatePeerConnectionStreams] *)
Definition updatePeerConnectionStreams : M unit :=
  ls ← gets localStreamRef;
  match ls with
  | None => mret ()
  | Some stream =>
      pcs ← gets peerConnections;
      forEach pcs (updateStream stream)
  end.

(** [shareScreen]: [switchSource] is the [if]/[else] of its body, which
    throws when the captured stream has no video track to hang [onended]
    on; the [onended] callback is [screenShareEnded]. *)
Definition switchSource (sharing : bool) : M unit :=
  if sharing then
    initializeMedia ;;
    dispatch TOGGLE_SCREEN_SHARE
  else
    screenStream ← await (getDisplayMedia browser);
    modify (with_localStreamRef (Some screenStream)) ;;
    dispatch (SET_LOCAL_STREAM (Some screenStream)) ;;
    dispatch TOGGLE_SCREEN_SHARE ;;
    when (bool_decide (filter (λ t, kind t = VideoKind) screenStream = []))
      throw.

Definition shareScreen : M unit :=
  try_catch
    (sharing ← gets (λ cs, isScreenSharing (state cs));
     switchSource sharing ;;
     updatePeerConnectionStreams)
    (log ErrorSharingScreen).

Definition screenShareEnded : M unit :=
  initializeMedia ;;
  dispatch TOGGLE_SCREEN_SHARE.

(** The effect on [[state.localStream]]. *)
Definition localStreamEffect : M unit :=
  ls ← gets localStreamRef;
  pcs ← gets peerConnections;
  when (isSome ls && negb (bool_decide (JSMap.size pcs = 0)))
    updatePeerConnectionStreams.

(** The effects on [[state.isAudioEnabled]] and [[state.isVideoEnabled]]. *)
Definition audioEnabledEffect : M unit :=
  sock ← gets socketRef;
  st ← gets state;
  match roomId st with
  | Some r =>
      when (isSome sock && truthy (roomId st))
        (emit (EvToggleAudio r (isAudioEnabled st) []))
  | None => mret ()
  end.

Definition videoEnabledEffect : M unit :=
  sock ← gets socketRef;
  st ← gets state;
  match roomId st with
  | Some r =>
      when (isSome sock && truthy (roomId st))
        (emit (EvToggleVideo r (isVideoEnabled st) []))
  | None => mret ()
  end.

End Handlers.

(** A browser in which every promise is fulfilled on an open connection,
    with the signaling states of the WebRTC offer/answer exchange. *)
Definition describe (local : bool) (d : RTCSessionDescriptionInit)
    (pc : RTCPeerConnection) : option RTCPeerConnection :=
  if decide (signalingState pc = SigClosed) then None
  else
    Some
      {| signalingState :=
           match sdpType d with
           | SdpOffer => if local then SigHaveLocalOffer else SigHaveRemoteOffer
           | SdpAnswer => SigStable
           end;
         connectionState := connectionState pc;
         localDescription := if local then Some d else localDescription pc;
         remoteDescription := if local then remoteDescription pc else Some d;
         senders := senders pc;
         remoteCandidates := remoteCandidates pc |}.

Definition cameraStream : MediaStream :=
  [ {| kind := AudioKind; enabled := true; ended := false |};
    {| kind := VideoKind; enabled := true; ended := false |} ].

Definition willingBrowser : Browser :=
  {| constructs := true;
     createOffer := λ pc,
       if decide (signalingState pc = SigClosed) then None
       else Some {| sdpType := SdpOffer; sdp := "v=0 offer" |};
     createAnswer := λ pc,
       if decide (signalingState pc = SigHaveRemoteOffer)
       then Some {| sdpType := SdpAnswer; sdp := "v=0 answer" |}
       else None;
     setLocalDescription := λ pc d, describe true d pc;
     setRemoteDescription := λ pc d, describe false d pc;
     addIceCandidate := λ pc c,
       if decide (signalingState pc = SigClosed) then None
       else
         Some {| signalingState := signalingState pc;
                 connectionState := connectionState pc;
                 localDescription := localDescription pc;
                 remoteDescription := remoteDescription pc;
                 senders := senders pc;
                 remoteCandidates := remoteCandidates pc ++ [c] |};
     getUserMedia := λ _, Some cameraStream;
     getDisplayMedia :=
       Some [ {| kind := VideoKind; enabled := true; ended := false |} ] |}.

End Client.

(** ** Vocabulary of the relay's properties *)
Module ServerSpec.
Import Server.

(** The participants a room's map holds under keys other than [sid], in
    the map's order. *)
Definition others (sid : string) (room : JSMap.t Participant.t)
    : list Participant.t :=
  (filter (λ kp, kp.1 ≠ sid) room).*2.

(** Every record sits under the key that is its own [id]. *)
Definition keyed_by_id (room : JSMap.t Participant.t) : Prop :=
  Forall (λ kp, Participant.id kp.2 = kp.1) room.

Definition room_wf (room : JSMap.t Participant.t) : Prop :=
  room ≠ [] ∧ NoDup (JSMap.keys room) ∧ keyed_by_id room.

Definition registry_wf (s : State) : Prop :=
  ∀ r room, rooms s !! r = Some room → room_wf room.

(** The rooms of the registry whose map has an entry for [sid]. *)
Definition roomsHolding (sid : string) (s : State) : list string :=
  (filter (λ rr, sid ∈ JSMap.keys rr.2) (map_to_list (rooms s))).*1.

Definition isExistingParticipants (e : Emission) : bool :=
  match e with
  | Emit (MsgExistingParticipants _) => true
  | _ => false
  end.


(** The registry agrees with socket.io on who is in which room.  A socket
    is always a member of the room named by its own id, which no
    [join-room] put it in, so the two are compared on the other
    connections. *)
Definition registry_matches_adapter (s : State) : Prop :=
  ∀ r c, c ≠ r →
    (c ∈ JSMap.keys (participantsOf s r) ↔ c ∈ members s r).

(** In the state [s], connection [sid] may send [ev] without setting off
    the defects of the cleanup: a join names a non-empty room, and the
    connection has no entry in another room at that time. *)
Definition orderly (s : State) (sid : string) (ev : Event) : Prop :=
  match ev with
  | EvJoinRoom r _ =>
      r ≠ "" ∧ ∀ r', sid ∈ JSMap.keys (participantsOf s r') → r' = r
  | _ => True
  end.

Fixpoint orderly_from (s : State) (evs : list (string * Event)) : Prop :=
  match evs with
  | [] => True
  | e :: evs' => orderly s e.1 e.2 ∧ orderly_from (handle e.1 e.2 s).1 evs'
  end.

(** Every entry of the registry belongs to an open connection whose
    [socket.roomId] is the entry's room. *)
Definition entries_current (s : State) : Prop :=
  ∀ r c, c ∈ JSMap.keys (participantsOf s r) →
    ∃ sock, sockets s !! c = Some sock ∧ roomId sock = Some r ∧ r ≠ "".

Definition agrees (s : State) : Prop :=
  entries_current s ∧ registry_matches_adapter s.


End ServerSpec.

(** ** Vocabulary of the client's properties *)
Module ClientSpec.

(** Every event of [evs] is an offer addressed to one of [ids]. *)
Definition only_offers_to (ids : list string) (evs : list Event) : Prop :=
  Forall (λ ev, ∃ target offer, ev = EvOffer target offer ∧ target ∈ ids)
    evs.

(** A provider whose socket exists and whose camera is on. *)
Definition readyClient : Client.ClientState :=
  Client.with_localStreamRef (Some Client.cameraStream)
    (Client.with_socketRef
       (Some {| Client.serverUrl := "http://localhost:3001" |})
       Client.initialClient).

End ClientSpec.

(** ** The relay's start-up: [getLocalIP] of [server/index.js] *)
Module Startup.

(** An entry of [os.networkInterfaces()], as far as [getLocalIP] reads
    it. *)
Record NetworkInterfaceInfo := {
  address : string;
  family : string;
  internal : bool
}.

(** The inner loop [for (const net of nets[name])]: the address it
    returns, if it returns. *)
Fixpoint scanInterface (l : list NetworkInterfaceInfo) : option string :=
  match l with
  | [] => None
  | net :: l' =>
      if bool_decide (family net = "IPv4") && negb (internal net)
      then Some (address net)
      else scanInterface l'
  end.

(** [function getLocalIP()]; [nets] are the entries of
    [networkInterfaces()] in the order of [Object.keys]. *)
Fixpoint getLocalIP (nets : list (string * list NetworkInterfaceInfo))
    : string :=
  match nets with
  | [] => "localhost"
  | (_, l) :: nets' =>
      match scanInterface l with
      | Some a => a
      | None => getLocalIP nets'
      end
  end.

End Startup.

(** ** The state callbacks of a peer connection

    The two callbacks [createPeerConnection] installs besides [ontrack]
    and [onicecandidate]. *)
Module ConnectionCallbacks.
Import Client.

(** [peerConnection.onconnectionstatechange]: on a failed connection it
    calls [peerConnection.restartIce()], outside any [try]; [restartIce]
    says whether that call returns ([true]) or throws. *)
Definition onconnectionstatechange (restartIce : bool)
    (peerConnection : RTCPeerConnection) : M unit :=
  when (bool_decide (connectionState peerConnection = ConnFailed))
    (when (negb restartIce) throw).

(** [peerConnection.oniceconnectionstatechange]: it reports the state. *)
Definition oniceconnectionstatechange : M unit := mret ().

End ConnectionCallbacks.

(** ** The room page: [src/pages/Room.tsx] *)
Module RoomPage.
Import Client.

(** [initRoom], as the page runs it the first time: media first, then
    the join.  Its [catch] block reports on the console and clears a flag
    of the page. *)
Definition initRoom (browser : Browser) (roomId userName : string)
    : M unit :=
  try_catch
    (initializeMedia browser ;;
     joinRoom roomId userName)
    (mret ()).

End RoomPage.

(** ** A session: the relay and the clients it serves *)
Module Session.
Import Server.

(** Connection [c] has sent a [join-room] naming [r] among [evs]. *)
Definition joined (evs : list (string * Event)) (c r : string) : Prop :=
  ∃ n, (c, EvJoinRoom r n) ∈ evs.

(** The events after which a connection's own record, if it has one, no
    longer needs to carry the audio flag ([audio] is [true]) or the video
    flag it had: a join writes a new record, a leave or a disconnect
    removes one, and a toggle of that kind sets the flag. *)
Definition resetsFlag (audio : bool) (ev : Event) : bool :=
  match ev with
  | EvJoinRoom _ _ | EvLeaveRoom | EvDisconnect => true
  | EvToggleAudio _ _ _ => audio
  | EvToggleVideo _ _ _ => negb audio
  | _ => false
  end.

(** The events by which a connection gives up rooms of socket.io. *)
Definition leavesRooms (ev : Event) : bool :=
  match ev with
  | EvLeaveRoom | EvDisconnect => true
  | _ => false
  end.

(** The events connection [c] receives, in order, of the emissions [out]
    of a handler run for connection [sender], given socket.io's rooms as
    [s] has them. *)
Definition delivered (s : State) (sender c : string) (out : list Emission)
    : list Message :=
  payload <$> filter (λ e, c ∈ recipients s sender e) out.

(** A client taking the events [ms] one after the other. *)
Definition receiveAll (browser : Client.Browser) (ms : list Message)
    (cs : Client.ClientState) : Client.ClientState :=
  foldl (λ cs m, (Client.receive browser m cs).2) cs ms.

(** What a handler of the client leaves alone when it renegotiates: the
    participants, the room, the transcript, and which peers have a
    connection; what it sends are offers to those peers. *)
Definition renegotiates (cs cs' : Client.ClientState) : Prop :=
  Client.participants (Client.state cs') =
    Client.participants (Client.state cs)
  ∧ Client.roomId (Client.state cs') = Client.roomId (Client.state cs)
  ∧ Client.chatMessages (Client.state cs') =
      Client.chatMessages (Client.state cs)
  ∧ JSMap.keys (Client.peerConnections cs') =
      JSMap.keys (Client.peerConnections cs)
  ∧ ∃ evs, Client.outbox cs' = Client.outbox cs ++ evs
           ∧ ClientSpec.only_offers_to
               (JSMap.keys (Client.peerConnections cs)) evs.

End Session.

(** * Properties *)

(** ** JavaScript maps *)
Section JSMapFacts.
Context {V : Type}.
Implicit Types (m : JSMap.t V) (k j : string) (v : V).
Import JSMap.

Lemma jsmap_get_None k m : get k m = None ↔ k ∉ keys m.
Proof.
  unfold keys. induction m as [|[k' v] m IH]; simpl.
  - split; [intros _; apply not_elem_of_nil | done].
  - rewrite not_elem_of_cons. case_decide as Hk.
    + split; [done | by intros [? _]].
    + rewrite IH. tauto.
Qed.

Lemma jsmap_get_is_Some k m : is_Some (get k m) ↔ k ∈ keys m.
Proof.
  rewrite <-not_eq_None_Some, jsmap_get_None.
  split; [apply dec_stable | auto].
Qed.

Lemma jsmap_has_true k m : has k m = true ↔ k ∈ keys m.
Proof.
  rewrite <-jsmap_get_is_Some. unfold has.
  destruct (get k m); split; intros H; try done; by destruct H.
Qed.

Lemma jsmap_get_set k v j m :
  get j (set k v m) = if decide (j = k) then Some v else get j m.
Proof.
  induction m as [|[k' v'] m IH]; simpl.
  - by repeat case_decide.
  - repeat (case_decide; simpl; subst); try done; congruence.
Qed.

Lemma jsmap_get_delete k j m :
  get j (delete k m) = if decide (j = k) then None else get j m.
Proof.
  induction m as [|[k' v'] m IH]; simpl.
  - by case_decide.
  - repeat (case_decide; simpl; subst); try done; congruence.
Qed.

Lemma jsmap_keys_set k v m :
  keys (set k v m) = if has k m then keys m else keys m ++ [k].
Proof.
  unfold has. induction m as [|[k' v'] m IH]; simpl; [done|].
  case_decide; simpl; subst; [done|].
  unfold keys in *. rewrite IH. by destruct (get k m).
Qed.

Lemma jsmap_keys_delete k m :
  keys (delete k m) = filter (λ j, j ≠ k) (keys m).
Proof.
  unfold keys. induction m as [|[k' v'] m IH]; simpl; [done|].
  rewrite filter_cons. simpl.
  destruct (decide (k = k')) as [->|Hne]; simpl.
  - rewrite decide_False by (by intros ?). done.
  - rewrite decide_True by (by intros ->). f_equal. exact IH.
Qed.

Lemma jsmap_NoDup_set k v m : NoDup (keys m) → NoDup (keys (set k v m)).
Proof.
  intros Hnd. rewrite jsmap_keys_set. destruct (has k m) eqn:Hk; [done|].
  apply NoDup_app. split_and!; [done| |apply NoDup_singleton].
  intros j Hj ->%list_elem_of_singleton.
  apply jsmap_has_true in Hj. congruence.
Qed.

Lemma jsmap_NoDup_delete k m : NoDup (keys m) → NoDup (keys (delete k m)).
Proof. intros Hnd. rewrite jsmap_keys_delete. by apply NoDup_filter. Qed.

Lemma jsmap_delete_nil_keys k m :
  delete k m = [] → ∀ j, j ∈ keys m → j = k.
Proof.
  intros Hd j Hj. destruct (decide (j = k)) as [|Hne]; [done|].
  apply jsmap_get_is_Some in Hj. assert (get j (delete k m) = get j m) as Heq.
  { rewrite jsmap_get_delete. by case_decide. }
  rewrite Hd in Heq. simpl in Heq. rewrite <-Heq in Hj. by destruct Hj.
Qed.

Lemma jsmap_set_not_nil k v m : set k v m ≠ [].
Proof. destruct m as [|[k' v'] m]; simpl; [done|]. by case_decide. Qed.

Lemma jsmap_elem_of_values_get v m :
  v ∈ values m → ∃ k, (k, v) ∈ m.
Proof.
  unfold values. intros ([k v'] & -> & Hin)%list_elem_of_fmap. eauto.
Qed.
End JSMapFacts.

(** ** The relay *)
Import Server ServerSpec.

Lemma run_snoc evs e : run (evs ++ [e]) = (handle e.1 e.2 (run evs)).1.
Proof. unfold run. by rewrite foldl_snoc. Qed.

Lemma keyed_by_id_get room k p :
  keyed_by_id room → JSMap.get k room = Some p → Participant.id p = k.
Proof.
  unfold keyed_by_id. induction room as [|[k' p'] room IH]; simpl; [done|].
  intros [Hhd Htl]%Forall_cons. case_decide as Hk.
  - intros [= ->]. by subst.
  - by apply IH.
Qed.

Lemma keyed_by_id_set room k p :
  keyed_by_id room → Participant.id p = k →
  keyed_by_id (JSMap.set k p room).
Proof.
  unfold keyed_by_id. intros Hroom Hp.
  induction room as [|[k' p'] room IH]; simpl.
  - by apply Forall_singleton.
  - apply Forall_cons in Hroom as [Hhd Htl]. case_decide.
    + by apply Forall_cons.
    + apply Forall_cons. split; [done | by apply IH].
Qed.

Lemma keyed_by_id_delete room k :
  keyed_by_id room → keyed_by_id (JSMap.delete k room).
Proof.
  unfold keyed_by_id. induction room as [|[k' p'] room IH]; simpl; [done|].
  intros [Hhd Htl]%Forall_cons. case_decide; [by apply IH|].
  apply Forall_cons. split; [done | by apply IH].
Qed.

Lemma filter_other_keys_cons (sid k : string) (p : Participant.t)
    (room : JSMap.t Participant.t) :
  filter (λ kp, kp.1 ≠ sid) ((k, p) :: room) =
    if decide (k ≠ sid)
    then (k, p) :: filter (λ kp, kp.1 ≠ sid) room
    else filter (λ kp, kp.1 ≠ sid) room.
Proof. reflexivity. Qed.

(** Under [keyed_by_id] the relay's filter on the [id] field selects the
    records of the other connections. *)
Lemma existingParticipants_others sid room :
  keyed_by_id room → existingParticipants sid room = others sid room.
Proof.
  unfold keyed_by_id, existingParticipants, others, JSMap.values.
  induction room as [|[k p] room IH]; [done|].
  intros [Hhd Htl]%Forall_cons. simpl in Hhd. subst k.
  rewrite fmap_cons, filter_cons, filter_other_keys_cons. simpl.
  case_decide; rewrite ?fmap_cons, IH; done.
Qed.

(** Setting the joiner's own key does not change who the others are. *)
Lemma others_set_self sid p room :
  others sid (JSMap.set sid p room) = others sid room.
Proof.
  unfold others. induction room as [|[k q] room IH]; simpl.
  - rewrite filter_other_keys_cons. simpl.
    by rewrite decide_False by (by intros ?).
  - case_decide as Hk.
    + subst k. rewrite !filter_other_keys_cons. simpl.
      by rewrite !decide_False by (by intros ?).
    + rewrite !filter_other_keys_cons. simpl.
      rewrite !decide_True by (by intros ->). rewrite !fmap_cons.
      f_equal. exact IH.
Qed.

Lemma length_others sid room :
  length (others sid room) =
    length (filter (λ k, k ≠ sid) (JSMap.keys room)).
Proof.
  unfold others, JSMap.keys. rewrite length_fmap.
  induction room as [|[k q] room IH]; [done|].
  rewrite fmap_cons, filter_cons, filter_other_keys_cons. simpl.
  case_decide; simpl; [f_equal|]; exact IH.
Qed.

(** *** The registry stays well formed *)

Lemma room_wf_set room sid p :
  room = [] ∨ room_wf room → Participant.id p = sid →
  room_wf (JSMap.set sid p room).
Proof.
  intros Hroom Hp. split_and!.
  - apply jsmap_set_not_nil.
  - apply jsmap_NoDup_set. destruct Hroom as [->|(_ & Hnd & _)]; [|done].
    apply NoDup_nil_2.
  - apply keyed_by_id_set; [|done].
    destruct Hroom as [->|(_ & _ & Hk)]; [apply Forall_nil_2 | done].
Qed.

Lemma join_room_lookup s roomId :
  default JSMap.empty
    (match rooms s !! roomId with
     | Some _ => rooms s
     | None => <[roomId := JSMap.empty]> (rooms s)
     end !! roomId) = participantsOf s roomId.
Proof.
  unfold participantsOf.
  destruct (rooms s !! roomId) as [room|] eqn:Hroom; simpl.
  - by rewrite Hroom.
  - by rewrite lookup_insert_eq.
Qed.

Lemma on_join_room_rooms sid roomId userName s r :
  rooms (on_join_room sid roomId userName s).1 !! r =
    if decide (r = roomId)
    then Some (JSMap.set sid (newParticipant sid userName)
                 (participantsOf s roomId))
    else rooms s !! r.
Proof.
  unfold on_join_room, participantsOf. simpl.
  destruct (rooms s !! roomId) as [room|] eqn:Hroom; simpl.
  - rewrite Hroom. simpl. rewrite lookup_insert. by repeat case_decide.
  - rewrite lookup_insert_eq. simpl. rewrite lookup_insert.
    case_decide; [by rewrite decide_True|].
    rewrite decide_False by done. by rewrite lookup_insert_ne.
Qed.

Lemma on_join_room_wf sid roomId userName s :
  registry_wf s → registry_wf (on_join_room sid roomId userName s).1.
Proof.
  intros Hwf r room. rewrite on_join_room_rooms. case_decide.
  - intros [= <-]. apply room_wf_set; [|done]. unfold participantsOf.
    destruct (rooms s !! roomId) as [room|] eqn:Hroom; simpl; eauto.
  - apply Hwf.
Qed.

Lemma on_toggle_audio_wf sid roomId b rest s :
  registry_wf s → registry_wf (on_toggle_audio sid roomId b rest s).1.
Proof.
  intros Hwf. unfold on_toggle_audio.
  destruct (rooms s !! roomId) as [room|] eqn:Hroom; [|done].
  destruct (JSMap.get sid room) as [p|] eqn:Hp; [|done].
  intros r room'. simpl. rewrite lookup_insert. case_decide; [|apply Hwf].
  intros [= <-]. apply room_wf_set; [right; by eapply Hwf|]. simpl.
  eapply keyed_by_id_get; [|done]. by eapply Hwf.
Qed.

Lemma on_toggle_video_wf sid roomId b rest s :
  registry_wf s → registry_wf (on_toggle_video sid roomId b rest s).1.
Proof.
  intros Hwf. unfold on_toggle_video.
  destruct (rooms s !! roomId) as [room|] eqn:Hroom; [|done].
  destruct (JSMap.get sid room) as [p|] eqn:Hp; [|done].
  intros r room'. simpl. rewrite lookup_insert. case_decide; [|apply Hwf].
  intros [= <-]. apply room_wf_set; [right; by eapply Hwf|]. simpl.
  eapply keyed_by_id_get; [|done]. by eapply Hwf.
Qed.

Lemma removeParticipant_wf sid r room
    (m : gmap string (JSMap.t Participant.t)) :
  (∀ r' room', m !! r' = Some room' → room_wf room') →
  room_wf room →
  ∀ r' room', removeParticipant sid r room m !! r' = Some room' →
    room_wf room'.
Proof.
  intros Hm (Hne & Hnd & Hk) r' room'. unfold removeParticipant.
  case_decide as Hsize.
  - rewrite lookup_delete. case_decide; [done | apply Hm].
  - rewrite lookup_insert. case_decide; [|apply Hm].
    intros [= <-]. split_and!.
    + intros Hnil. by rewrite Hnil in Hsize.
    + by apply jsmap_NoDup_delete.
    + by apply keyed_by_id_delete.
Qed.

Lemma currentRoom_Some sock s r room :
  currentRoom sock s = Some (r, room) →
  roomId sock = Some r ∧ r ≠ "" ∧ rooms s !! r = Some room.
Proof.
  unfold currentRoom. destruct (roomId sock) as [r'|]; simpl; [|done].
  case_bool_decide; [|done]. simpl.
  destruct (rooms s !! r') as [room'|] eqn:Hroom; simpl; [|done].
  by intros [= <- <-].
Qed.

Lemma handle_wf sid ev s :
  registry_wf s → registry_wf (handle sid ev s).1.
Proof.
  intros Hwf. unfold handle.
  destruct (sockets s !! sid) as [sock|]; destruct ev; try done.
  - by apply on_join_room_wf.
  - by apply on_toggle_audio_wf.
  - by apply on_toggle_video_wf.
  - unfold on_disconnect.
    destruct (currentRoom sock s) as [[r room]|] eqn:Hcur; [|done].
    apply currentRoom_Some in Hcur as (_ & _ & Hroom).
    intros r' room'. simpl. apply removeParticipant_wf; [done|].
    by eapply Hwf.
  - unfold on_leave_room.
    destruct (currentRoom sock s) as [[r room]|] eqn:Hcur; [|done].
    apply currentRoom_Some in Hcur as (_ & _ & Hroom).
    intros r' room'. simpl. apply removeParticipant_wf; [done|].
    by eapply Hwf.
Qed.

Lemma run_wf evs : registry_wf (run evs).
Proof.
  induction evs as [|e evs IH] using rev_ind.
  - intros r room. unfold run. simpl. by rewrite lookup_empty.
  - rewrite run_snoc. by apply handle_wf.
Qed.

Lemma participantsOf_wf evs r :
  participantsOf (run evs) r = [] ∨ room_wf (participantsOf (run evs) r).
Proof.
  unfold participantsOf.
  destruct (rooms (run evs) !! r) as [room|] eqn:Hroom; simpl; [|by left].
  right. by eapply run_wf.
Qed.

Lemma participantsOf_keyed evs r : keyed_by_id (participantsOf (run evs) r).
Proof.
  destruct (participantsOf_wf evs r) as [->|(_ & _ & Hk)]; [|done].
  apply Forall_nil_2.
Qed.

(** No room of the registry is ever empty. *)
Lemma registry_has_no_empty_room evs r room :
  rooms (run evs) !! r = Some room → room ≠ [].
Proof. intros Hroom. by eapply run_wf. Qed.

(** The emissions of a join, in order. *)
Lemma on_join_room_emissions evs sid roomId userName :
  (on_join_room sid roomId userName (run evs)).2 =
    (if decide (others sid (participantsOf (run evs) roomId) = [])
     then []
     else [Emit (MsgExistingParticipants
                   (others sid (participantsOf (run evs) roomId)))])
    ++ [To roomId (MsgUserJoined (newParticipant sid userName))].
Proof.
  unfold on_join_room. simpl. rewrite join_room_lookup. f_equal.
  rewrite existingParticipants_others, others_set_self.
  - by destruct (others sid (participantsOf (run evs) roomId)).
  - apply keyed_by_id_set; [apply participantsOf_keyed | done].
Qed.

(** *** Joining a room *)





(** C3, as amended: a join into a room that holds [N >= 1] other
    participants emits exactly one [existing-participants] event, which
    lists those [N] participants in the order of the room's map; a join
    into a room that holds no other participant emits none. *)
Theorem join_existing_participants_once evs sid roomId userName :
  let s := run evs in
  let existing := others sid (participantsOf s roomId) in
  let out := (on_join_room sid roomId userName s).2 in
  filter (λ e, isExistingParticipants e = true) out =
    (if decide (existing = [])
     then []
     else [Emit (MsgExistingParticipants existing)])
  ∧ length existing =
      length (filter (λ k, k ≠ sid) (JSMap.keys (participantsOf s roomId))).
Proof.
  intros s existing out. subst out s. split; [|apply length_others].
  rewrite on_join_room_emissions. fold existing.
  by destruct (decide (existing = [])).
Qed.

(** C3 as stated fails for [N = 0]: the first connection to join a room
    receives no [existing-participants] event, not one with an empty
    list. *)
Lemma join_empty_room_no_existing_participants :
  let s := run [("A", EvConnection)] in
  let out := (handle "A" (EvJoinRoom "r1" "alice") s).2 in
  others "A" (participantsOf s "r1") = []
  ∧ filter (λ e, isExistingParticipants e = true) out = []
  ∧ Emit (MsgExistingParticipants []) ∉ out.
Proof.
  split_and!; [by vm_compute | by vm_compute |].
  intros Hin. vm_compute in Hin.
  apply list_elem_of_singleton in Hin. discriminate.
Qed.

(** The earlier revision sends both events on every join, the broadcast
    first: there [existing-participants] comes with an empty list into an
    empty room, and never before [user-joined]. *)
Lemma earlier_join_user_joined_first s sid roomId userName :
  ∃ ps,
    (EarlierServer.on_join_room sid roomId userName s).2 =
      [To roomId (MsgUserJoined (newParticipant sid userName));
       Emit (MsgExistingParticipants ps)]
    ∧ (EarlierServer.on_join_room sid roomId userName s).1 =
        (on_join_room sid roomId userName s).1.
Proof. eexists. split; reflexivity. Qed.

(** C8, as amended: within the room it names, a join stores the joining
    connection's record under the connection's id, replacing in place a
    record that is already there, so the connection id occurs exactly once
    among that room's keys; and no room of the registry ever has a
    repeated key. *)
Theorem join_replaces_entry_within_room evs sid roomId userName :
  let s := run evs in
  let before := participantsOf s roomId in
  let after := participantsOf (on_join_room sid roomId userName s).1 roomId in
  JSMap.get sid after = Some (newParticipant sid userName)
  ∧ JSMap.keys after =
      (if JSMap.has sid before
       then JSMap.keys before
       else JSMap.keys before ++ [sid])
  ∧ NoDup (JSMap.keys after)
  ∧ (∀ r, NoDup (JSMap.keys (participantsOf s r))).
Proof.
  intros s before after.
  assert (after = JSMap.set sid (newParticipant sid userName) before) as ->.
  { unfold after, participantsOf at 1. rewrite on_join_room_rooms.
    by rewrite decide_True. }
  assert (∀ r, NoDup (JSMap.keys (participantsOf s r))) as Hnd.
  { intros r. subst s.
    destruct (participantsOf_wf evs r) as [Hnil|(_ & ? & _)]; [|done].
    rewrite Hnil. apply NoDup_nil_2. }
  split_and!; [| |apply jsmap_NoDup_set, Hnd|done].
  - rewrite jsmap_get_set. by rewrite decide_True.
  - apply jsmap_keys_set.
Qed.

(** C8 as stated fails across rooms: a connection that joins a second room
    keeps its entry in the first, so its id occurs twice in the
    registry. *)
Lemma join_second_room_keeps_first_entry :
  let s := run [("A", EvConnection); ("A", EvJoinRoom "r1" "alice");
                ("A", EvJoinRoom "r2" "alice")] in
  roomsHolding "A" s = ["r1"; "r2"].
Proof. by vm_compute. Qed.

(** *** Leaving and disconnecting *)

(** C2 fails on the relay: a connection that joins [r1], then [r2], and
    then disconnects is removed from [r2] only ([socket.roomId] holds the
    last room); its record stays in [r1], which socket.io has emptied, and
    [r1] stays in the registry. *)
Theorem rejoin_then_disconnect_leaves_stale_entry :
  let s := run [("A", EvConnection); ("A", EvJoinRoom "r1" "alice");
                ("A", EvJoinRoom "r2" "alice"); ("A", EvDisconnect)] in
  sockets s !! "A" = None
  ∧ members s "r1" = ∅
  ∧ JSMap.keys (participantsOf s "r1") = ["A"]
  ∧ rooms s !! "r2" = None.
Proof. split_and!; by vm_compute. Qed.

(** The guard of [disconnect] and [leave-room] takes an empty room id for
    no room at all, while [join-room] registers it like any other: such an
    entry is never removed. *)
Lemma empty_room_id_entry_never_removed :
  let s := run [("A", EvConnection); ("A", EvJoinRoom "" "alice");
                ("A", EvLeaveRoom); ("A", EvDisconnect)] in
  sockets s !! "A" = None
  ∧ JSMap.keys (participantsOf s "") = ["A"].
Proof. split; by vm_compute. Qed.

(** *** Toggles *)

Lemma participantsOf_insert s r r' room :
  default JSMap.empty (<[r := room]> (rooms s) !! r') =
    if decide (r' = r) then room else participantsOf s r'.
Proof.
  unfold participantsOf. rewrite lookup_insert.
  repeat case_decide; simpl; congruence.
Qed.

Lemma on_toggle_audio_get sid roomId b rest s r k :
  JSMap.get k (participantsOf (on_toggle_audio sid roomId b rest s).1 r) =
    if decide (r = roomId ∧ k = sid)
    then setAudioEnabled b <$> JSMap.get k (participantsOf s r)
    else JSMap.get k (participantsOf s r).
Proof.
  unfold on_toggle_audio.
  destruct (rooms s !! roomId) as [room|] eqn:Hroom.
  - destruct (JSMap.get sid room) as [p|] eqn:Hp; simpl.
    + unfold participantsOf at 1. simpl. rewrite participantsOf_insert.
      destruct (decide (r = roomId)) as [->|Hr].
      * rewrite jsmap_get_set. unfold participantsOf. rewrite Hroom. simpl.
        destruct (decide (k = sid)) as [->|Hk].
        -- rewrite decide_True by done. by rewrite Hp.
        -- by rewrite decide_False by (by intros [_ ?]).
      * by rewrite decide_False by (by intros [? _]).
    + case_decide as Hrk; [|done]. destruct Hrk as [-> ->].
      unfold participantsOf. rewrite Hroom. simpl. by rewrite Hp.
  - simpl. case_decide as Hrk; [|done]. destruct Hrk as [-> ->].
    unfold participantsOf. by rewrite Hroom.
Qed.

Lemma on_toggle_video_get sid roomId b rest s r k :
  JSMap.get k (participantsOf (on_toggle_video sid roomId b rest s).1 r) =
    if decide (r = roomId ∧ k = sid)
    then setVideoEnabled b <$> JSMap.get k (participantsOf s r)
    else JSMap.get k (participantsOf s r).
Proof.
  unfold on_toggle_video.
  destruct (rooms s !! roomId) as [room|] eqn:Hroom.
  - destruct (JSMap.get sid room) as [p|] eqn:Hp; simpl.
    + unfold participantsOf at 1. simpl. rewrite participantsOf_insert.
      destruct (decide (r = roomId)) as [->|Hr].
      * rewrite jsmap_get_set. unfold participantsOf. rewrite Hroom. simpl.
        destruct (decide (k = sid)) as [->|Hk].
        -- rewrite decide_True by done. by rewrite Hp.
        -- by rewrite decide_False by (by intros [_ ?]).
      * by rewrite decide_False by (by intros [? _]).
    + case_decide as Hrk; [|done]. destruct Hrk as [-> ->].
      unfold participantsOf. rewrite Hroom. simpl. by rewrite Hp.
  - simpl. case_decide as Hrk; [|done]. destruct Hrk as [-> ->].
    unfold participantsOf. by rewrite Hroom.
Qed.

(** C5, as amended: in every registry state a toggle changes at most the
    record stored under the sending connection's id in the room the
    payload names, and there only the flag it sets; every other record
    of every room reads as before.  Whatever else the payload carries,
    a participant id included, is not read: the toggle is applied to the
    sender's record all the same. *)
Theorem toggle_changes_only_sender_record s sid roomId enabled rest :
  let sa := (on_toggle_audio sid roomId enabled rest s).1 in
  let sv := (on_toggle_video sid roomId enabled rest s).1 in
  (∀ r k,
     JSMap.get k (participantsOf sa r) =
       if decide (r = roomId ∧ k = sid)
       then setAudioEnabled enabled <$> JSMap.get k (participantsOf s r)
       else JSMap.get k (participantsOf s r))
  ∧ (∀ r k,
       JSMap.get k (participantsOf sv r) =
         if decide (r = roomId ∧ k = sid)
         then setVideoEnabled enabled <$> JSMap.get k (participantsOf s r)
         else JSMap.get k (participantsOf s r))
  ∧ on_toggle_audio sid roomId enabled rest s =
      on_toggle_audio sid roomId enabled [] s
  ∧ on_toggle_video sid roomId enabled rest s =
      on_toggle_video sid roomId enabled [] s.
Proof.
  intros sa sv. split_and!; [| |done|done].
  - intros r k. apply on_toggle_audio_get.
  - intros r k. apply on_toggle_video_get.
Qed.

(** C5 as stated fails in its last part: a toggle whose payload names
    participant [B] is not without effect, it switches off the audio flag
    of its sender [A]. *)
Lemma toggle_naming_other_changes_sender :
  let s := run [("A", EvConnection); ("A", EvJoinRoom "r1" "alice");
                ("B", EvConnection); ("B", EvJoinRoom "r1" "bob")] in
  let s' := (handle "A"
               (EvToggleAudio "r1" false [("participantId", "B")]) s).1 in
  JSMap.get "A" (participantsOf s "r1") =
    Some (Participant.make "A" "alice" true true)
  ∧ JSMap.get "A" (participantsOf s' "r1") =
      Some (Participant.make "A" "alice" false true)
  ∧ rooms s' ≠ rooms s.
Proof.
  split_and!; [by vm_compute | by vm_compute |].
  intros Heq. apply (f_equal (λ m, m !! "r1")) in Heq.
  vm_compute in Heq. discriminate.
Qed.

(** *** Chat *)

(** C9: whatever the state of the relay and whatever room id the event
    names, the chat handler of an open connection changes nothing and
    emits one event, the client's message object as it came, to the
    adapter's members of that room other than the sender.  Nothing in
    the statement depends on the sender being a member of the room or on
    the room being in the registry. *)
Theorem chat_message_relayed_verbatim s sid sock roomId message :
  sockets s !! sid = Some sock →
  handle sid (EvChatMessage roomId message) s =
    (s, [To roomId (MsgChatMessage message)])
  ∧ Forall (λ e, payload e = MsgChatMessage message
                 ∧ recipients s sid e = members s roomId ∖ {[sid]})
      (handle sid (EvChatMessage roomId message) s).2.
Proof.
  intros Hsock. unfold handle. rewrite Hsock. simpl. split; [done|].
  apply Forall_singleton. done.
Qed.

(** A connection that has joined nothing relays a message with a sender
    id of its choosing into a room of others, and into no room at all. *)
Lemma chat_message_relayed_verbatim_witness :
  let s := run [("A", EvConnection); ("B", EvConnection);
                ("B", EvJoinRoom "r1" "bob")] in
  let m := ChatMessage.make "1" "mallory" "Bob" "hi" 0 in
  ("A" ∉ members s "r1")
  ∧ handle "A" (EvChatMessage "r1" m) s = (s, [To "r1" (MsgChatMessage m)])
  ∧ handle "A" (EvChatMessage "nowhere" m) s =
      (s, [To "nowhere" (MsgChatMessage m)]).
Proof.
  split_and!.
  - vm_compute. set_solver.
  - refine (proj1 (chat_message_relayed_verbatim _ "A"
                     {| userName := None; roomId := None |} "r1" _ _)).
    by vm_compute.
  - refine (proj1 (chat_message_relayed_verbatim _ "A"
                     {| userName := None; roomId := None |} "nowhere" _ _)).
    by vm_compute.
Defined.

(** *** When the registry agrees with socket.io *)

Lemma members_sio_join c r a r' :
  sio_join c r a !!! r' =
    if decide (r' = r) then {[c]} ∪ a !!! r else a !!! r'.
Proof.
  unfold sio_join. case_decide as Hr.
  - subst. by rewrite lookup_total_insert_eq.
  - by rewrite lookup_total_insert_ne.
Qed.

Lemma members_sio_leave c r a r' :
  sio_leave c r a !!! r' =
    if decide (r' = r) then a !!! r ∖ {[c]} else a !!! r'.
Proof.
  unfold sio_leave. case_decide as Hr.
  - subst. by rewrite lookup_total_insert_eq.
  - by rewrite lookup_total_insert_ne.
Qed.

Lemma members_sio_leave_all c (a : gmap string (gset string)) r' :
  sio_leave_all c a !!! r' = a !!! r' ∖ {[c]}.
Proof.
  unfold sio_leave_all. rewrite !lookup_total_alt, lookup_fmap.
  destruct (a !! r'); simpl; [done|]. symmetry. apply difference_disjoint_L.
  apply disjoint_empty_l.
Qed.

Lemma elem_of_keys_set {V} c k (v : V) room :
  c ∈ JSMap.keys (JSMap.set k v room) ↔ c = k ∨ c ∈ JSMap.keys room.
Proof.
  rewrite <-!jsmap_get_is_Some, jsmap_get_set. case_decide as Hc.
  - split; [by left | eauto].
  - split; [by right | by intros [?|?]].
Qed.

Lemma elem_of_keys_delete {V} c k (room : JSMap.t V) :
  c ∈ JSMap.keys (JSMap.delete k room) ↔ c ≠ k ∧ c ∈ JSMap.keys room.
Proof.
  rewrite <-!jsmap_get_is_Some, jsmap_get_delete. case_decide as Hc.
  - split; [by intros [? ?] | by intros [? _]].
  - split; [done | by intros [_ ?]].
Qed.

Lemma participantsOf_join sid roomId userName s r :
  participantsOf (on_join_room sid roomId userName s).1 r =
    if decide (r = roomId)
    then JSMap.set sid (newParticipant sid userName) (participantsOf s roomId)
    else participantsOf s r.
Proof.
  unfold participantsOf at 1. rewrite on_join_room_rooms. by case_decide.
Qed.

Lemma participantsOf_remove sid r room
    (m : gmap string (JSMap.t Participant.t)) r' :
  m !! r = Some room →
  default JSMap.empty (removeParticipant sid r room m !! r') =
    if decide (r' = r) then JSMap.delete sid room
    else default JSMap.empty (m !! r').
Proof.
  intros Hroom. unfold removeParticipant. case_decide as Hsize.
  - rewrite lookup_delete. case_decide as Hr; [|by rewrite decide_False].
    subst. simpl. rewrite decide_True by done.
    by destruct (JSMap.delete sid room).
  - rewrite lookup_insert. by repeat case_decide; subst.
Qed.

Lemma keys_toggle sid p p' (room : JSMap.t Participant.t) :
  JSMap.get sid room = Some p →
  JSMap.keys (JSMap.set sid p' room) = JSMap.keys room.
Proof. intros Hp. rewrite jsmap_keys_set. unfold JSMap.has. by rewrite Hp. Qed.

Lemma on_toggle_audio_keys sid roomId b rest s r :
  JSMap.keys (participantsOf (on_toggle_audio sid roomId b rest s).1 r) =
    JSMap.keys (participantsOf s r).
Proof.
  unfold on_toggle_audio.
  destruct (rooms s !! roomId) as [room|] eqn:Hroom; [|done].
  destruct (JSMap.get sid room) as [p|] eqn:Hp; [|done].
  unfold participantsOf at 1. simpl. rewrite participantsOf_insert.
  case_decide; [|done]. subst. unfold participantsOf. rewrite Hroom. simpl.
  by eapply keys_toggle.
Qed.

Lemma on_toggle_video_keys sid roomId b rest s r :
  JSMap.keys (participantsOf (on_toggle_video sid roomId b rest s).1 r) =
    JSMap.keys (participantsOf s r).
Proof.
  unfold on_toggle_video.
  destruct (rooms s !! roomId) as [room|] eqn:Hroom; [|done].
  destruct (JSMap.get sid room) as [p|] eqn:Hp; [|done].
  unfold participantsOf at 1. simpl. rewrite participantsOf_insert.
  case_decide; [|done]. subst. unfold participantsOf. rewrite Hroom. simpl.
  by eapply keys_toggle.
Qed.

Lemma agrees_frame s s' :
  (∀ r,
     JSMap.keys (participantsOf s' r) = JSMap.keys (participantsOf s r)) →
  adapter s' = adapter s → sockets s' = sockets s →
  agrees s → agrees s'.
Proof.
  intros Hkeys Had Hso [Hcur Hmatch]. split.
  - intros r c. rewrite Hkeys, Hso. apply Hcur.
  - intros r c Hc. unfold members. rewrite Hkeys, Had. by apply Hmatch.
Qed.

Lemma on_connection_agrees sid s :
  sockets s !! sid = None → agrees s → agrees (on_connection sid s).
Proof.
  intros Hnew [Hcur Hmatch]. split.
  - intros r c Hin. destruct (Hcur r c Hin) as (sock & Hsock & Hr).
    exists sock. split; [|done]. simpl. rewrite lookup_insert_ne; [done|].
    intros ->. congruence.
  - intros r c Hc. unfold members. simpl. rewrite members_sio_join.
    rewrite (Hmatch r c Hc). unfold members. case_decide; [|done].
    subst. rewrite elem_of_union, elem_of_singleton. tauto.
Qed.

Lemma on_join_room_agrees sid roomId userName s :
  orderly s sid (EvJoinRoom roomId userName) → agrees s →
  agrees (on_join_room sid roomId userName s).1.
Proof.
  intros [Hne Hone] [Hcur Hmatch]. split.
  - intros r c. rewrite participantsOf_join. simpl.
    destruct (decide (r = roomId)) as [->|Hr].
    + rewrite elem_of_keys_set. destruct (decide (c = sid)) as [->|Hc].
      * intros _. eexists. by rewrite lookup_insert_eq.
      * intros [?|Hin]; [done|]. rewrite lookup_insert_ne by done.
        by apply Hcur.
    + intros Hin. destruct (decide (c = sid)) as [->|Hc].
      * by apply Hone in Hin.
      * rewrite lookup_insert_ne by done. by apply Hcur.
  - intros r c Hc. rewrite participantsOf_join. unfold members. simpl.
    rewrite members_sio_join. destruct (decide (r = roomId)) as [->|Hr].
    + rewrite elem_of_keys_set, (Hmatch roomId c Hc). unfold members.
      rewrite elem_of_union, elem_of_singleton. tauto.
    + by apply Hmatch.
Qed.

Lemma currentRoom_None_no_entry sid sock s :
  entries_current s → sockets s !! sid = Some sock →
  currentRoom sock s = None → ∀ r, sid ∉ JSMap.keys (participantsOf s r).
Proof.
  intros Hcur Hsock Hnone r Hin.
  destruct (Hcur r sid Hin) as (sock' & Hsock' & Hr & Hne).
  assert (sock' = sock) as -> by congruence.
  unfold currentRoom in Hnone. rewrite Hr in Hnone. simpl in Hnone.
  rewrite bool_decide_eq_true_2 in Hnone by done. simpl in Hnone.
  unfold participantsOf in Hin. destruct (rooms s !! r); [done|].
  simpl in Hin. by apply not_elem_of_nil in Hin.
Qed.

Lemma on_leave_room_agrees sid sock s :
  sockets s !! sid = Some sock → agrees s →
  agrees (on_leave_room sid sock s).1.
Proof.
  intros Hsock [Hcur Hmatch]. unfold on_leave_room.
  destruct (currentRoom sock s) as [[r room]|] eqn:Hroom; [|done].
  apply currentRoom_Some in Hroom as (Hr & Hne & Hroom).
  assert (∀ r', participantsOf
            {| rooms := removeParticipant sid r room (rooms s);
               adapter := sio_leave sid r (adapter s);
               sockets := sockets s |} r' =
          if decide (r' = r) then JSMap.delete sid room
          else participantsOf s r') as Hp.
  { intros r'. unfold participantsOf. simpl. by apply participantsOf_remove. }
  assert (participantsOf s r = room) as Hpr.
  { unfold participantsOf. by rewrite Hroom. }
  split.
  - intros r' c. rewrite Hp. simpl. case_decide as Hr'.
    + subst r'. rewrite elem_of_keys_delete. intros [_ Hin].
      apply Hcur. by rewrite Hpr.
    + apply Hcur.
  - intros r' c Hc. rewrite Hp. unfold members. simpl.
    rewrite members_sio_leave. case_decide as Hr'.
    + subst r'. rewrite elem_of_keys_delete, <-Hpr, (Hmatch r c Hc).
      unfold members. rewrite elem_of_difference, elem_of_singleton. tauto.
    + by apply Hmatch.
Qed.

Lemma on_disconnect_agrees sid sock s :
  sockets s !! sid = Some sock → agrees s →
  agrees (on_disconnect sid sock s).1.
Proof.
  intros Hsock [Hcur Hmatch].
  assert (∃ f : string → JSMap.t Participant.t,
            (∀ r', participantsOf (on_disconnect sid sock s).1 r' = f r')
            ∧ ∀ r' c, c ∈ JSMap.keys (f r') ↔
                c ≠ sid ∧ c ∈ JSMap.keys (participantsOf s r'))
    as (f & Hf & Hkeys).
  { unfold on_disconnect.
    destruct (currentRoom sock s) as [[r room]|] eqn:Hroom.
    - apply currentRoom_Some in Hroom as (Hr & Hne & Hroom).
      exists (λ r', if decide (r' = r) then JSMap.delete sid room
                    else participantsOf s r').
      split.
      + intros r'. unfold participantsOf. simpl.
        by apply participantsOf_remove.
      + intros r' c. case_decide as Hr'.
        * subst r'. rewrite elem_of_keys_delete. unfold participantsOf.
          by rewrite Hroom.
        * split; [|by intros [_ ?]]. intros Hin. split; [|done].
          intros ->. destruct (Hcur r' sid Hin) as (sock' & Hs & Hr'' & _).
          congruence.
    - exists (participantsOf s). split; [done|]. intros r' c.
      split; [|by intros [_ ?]]. intros Hin. split; [|done]. intros ->.
      by eapply currentRoom_None_no_entry. }
  assert (sockets (on_disconnect sid sock s).1 = delete sid (sockets s)
          ∧ adapter (on_disconnect sid sock s).1 =
              sio_leave_all sid (adapter s)) as [Hso Had].
  { unfold on_disconnect. by destruct (currentRoom sock s) as [[r room]|]. }
  split.
  - intros r c. rewrite Hf, Hkeys, Hso. intros [Hc Hin].
    rewrite lookup_delete_ne by done. by apply Hcur.
  - intros r c Hc. unfold members. rewrite Hf, Hkeys, Had.
    rewrite members_sio_leave_all, (Hmatch r c Hc). unfold members.
    rewrite elem_of_difference, elem_of_singleton. tauto.
Qed.

Lemma handle_agrees sid ev s :
  orderly s sid ev → agrees s → agrees (handle sid ev s).1.
Proof.
  intros Hord Hagr. unfold handle.
  destruct (sockets s !! sid) as [sock|] eqn:Hsock.
  - destruct ev; simpl; try done.
    + by apply on_join_room_agrees.
    + eapply agrees_frame; [|..|done].
      * apply on_toggle_audio_keys.
      * unfold on_toggle_audio. by repeat case_match.
      * unfold on_toggle_audio. by repeat case_match.
    + eapply agrees_frame; [|..|done].
      * apply on_toggle_video_keys.
      * unfold on_toggle_video. by repeat case_match.
      * unfold on_toggle_video. by repeat case_match.
    + by apply on_disconnect_agrees.
    + by apply on_leave_room_agrees.
  - destruct ev; simpl; try done. by apply on_connection_agrees.
Qed.

Lemma init_agrees : agrees init.
Proof.
  split.
  - intros r c Hin. by apply not_elem_of_nil in Hin.
  - intros r c _. unfold members, participantsOf. simpl.
    rewrite lookup_empty, lookup_total_empty. simpl.
    split; intros Hin; [by apply not_elem_of_nil in Hin|].
    by apply not_elem_of_empty in Hin.
Qed.

Lemma orderly_run_agrees evs s :
  agrees s → orderly_from s evs →
  agrees (foldl (λ s e, (handle e.1 e.2 s).1) s evs).
Proof.
  revert s. induction evs as [|e evs IH]; intros s Hagr Hord; [done|].
  destruct Hord as [He Hord]. simpl. apply IH; [|done].
  by apply handle_agrees.
Qed.

(** Where the registry does stay exact: as long as no connection joins a
    room while its entry sits in another one, and no join names the empty
    room id, the registry and socket.io agree on the members of every
    room after every sequence of events, and every entry belongs to an
    open connection. *)
Lemma orderly_registry_matches_adapter evs :
  orderly_from init evs →
  registry_matches_adapter (run evs) ∧ entries_current (run evs).
Proof.
  intros Hord. destruct (orderly_run_agrees evs init init_agrees Hord).
  done.
Qed.

Lemma orderly_from_snoc s evs e :
  orderly_from s (evs ++ [e]) ↔
    orderly_from s evs
    ∧ orderly (foldl (λ s e, (handle e.1 e.2 s).1) s evs) e.1 e.2.
Proof.
  revert s. induction evs as [|e' evs IH]; intros s; simpl.
  - tauto.
  - rewrite IH. tauto.
Qed.

(** A connection that has not joined yet has no entry anywhere, so its
    first join is orderly. *)
Lemma first_join_orderly evs sid sock r userName :
  orderly_from init evs →
  sockets (run evs) !! sid = Some sock → roomId sock = None → r ≠ "" →
  orderly (run evs) sid (EvJoinRoom r userName).
Proof.
  intros Hord Hsock Hroom Hr. split; [done|]. intros r' Hin.
  destruct (orderly_registry_matches_adapter evs Hord) as [_ Hcur].
  destruct (Hcur r' sid Hin) as (sock' & Hsock' & Hr' & _). congruence.
Qed.

(** The condition of [orderly_registry_matches_adapter] is met by the
    sessions the client produces: two connections join one room and one
    of them drops. *)
Lemma orderly_session :
  let evs := [("A", EvConnection); ("A", EvJoinRoom "r1" "alice");
              ("B", EvConnection); ("B", EvJoinRoom "r1" "bob");
              ("B", EvDisconnect)] in
  orderly_from init evs
  ∧ JSMap.keys (participantsOf (run evs) "r1") = ["A"]
  ∧ members (run evs) "r1" = {["A"]}.
Proof.
  intros evs. split; [|split; by vm_compute].
  assert (orderly_from init [("A", EvConnection)]) as H1 by done.
  assert (orderly_from init
            [("A", EvConnection); ("A", EvJoinRoom "r1" "alice")]) as H2.
  { apply (proj2 (orderly_from_snoc init [_] _)). split; [exact H1|].
    by apply (first_join_orderly [("A", EvConnection)] "A"
                {| userName := None; roomId := None |}). }
  assert (orderly_from init
            [("A", EvConnection); ("A", EvJoinRoom "r1" "alice");
             ("B", EvConnection)]) as H3.
  { apply (proj2 (orderly_from_snoc init [_; _] _)). by split. }
  apply (proj2 (orderly_from_snoc init [_; _; _; _] _)). split; [|done].
  apply (proj2 (orderly_from_snoc init [_; _; _] _)). split; [exact H3|].
  by apply (first_join_orderly
              [("A", EvConnection); ("A", EvJoinRoom "r1" "alice");
               ("B", EvConnection)] "B"
              {| userName := None; roomId := None |}).
Qed.

(** ** The client *)
Import Client ClientSpec.

Ltac run_handler :=
  unfold createPeerConnection, createAndSendOffer, handleOffer, try_catch,
    await, when, gets, modify, log, emit, dispatch, setPeerConnection, throw,
    mbind, mret, M_bind, M_ret;
  simpl.

Section ClientFacts.
Context (browser : Browser).

Lemma createAndSendOffer_outbox participantId pc cs :
  outbox (createAndSendOffer browser participantId pc cs).2 = outbox cs
  ∨ ∃ offer,
      outbox (createAndSendOffer browser participantId pc cs).2 =
        outbox cs ++ [EvOffer participantId offer].
Proof.
  run_handler.
  destruct (createOffer browser pc) as [offer|]; simpl; [|by left].
  destruct (setLocalDescription browser pc offer) as [pc'|]; simpl;
    [|by left].
  destruct (socketRef cs); simpl; [right; by exists offer | by left].
Qed.

Lemma createAndSendOffer_get participantId pc cs :
  JSMap.get participantId (peerConnections cs) = Some pc →
  is_Some (JSMap.get participantId
             (peerConnections
                (createAndSendOffer browser participantId pc cs).2)).
Proof.
  intros Hpc. run_handler.
  destruct (createOffer browser pc) as [offer|]; simpl; [|by rewrite Hpc].
  destruct (setLocalDescription browser pc offer) as [pc'|]; simpl;
    [|by rewrite Hpc].
  destruct (socketRef cs); simpl;
    rewrite jsmap_get_set, decide_True by done; eauto.
Qed.

Lemma createPeerConnection_outbox participantId shouldCreateOffer cs :
  let cs' :=
    (createPeerConnection browser participantId shouldCreateOffer cs).2 in
  (outbox cs' = outbox cs
   ∨ shouldCreateOffer = true
     ∧ ∃ offer, outbox cs' = outbox cs ++ [EvOffer participantId offer])
  ∧ (constructs browser = true →
     JSMap.has participantId (peerConnections cs') = true).
Proof.
  unfold createPeerConnection, try_catch, when, throw, gets, setPeerConnection,
    modify, mbind, M_bind, mret, M_ret.
  destruct (constructs browser); simpl; [|split; [by left | done]].
  set (pc := with_senders (default [] (localStreamRef cs))
               newRTCPeerConnection).
  set (cs1 := with_peerConnections
                (JSMap.set participantId pc (peerConnections cs)) cs).
  assert (JSMap.get participantId (peerConnections cs1) = Some pc) as Hpc.
  { simpl. by rewrite jsmap_get_set, decide_True. }
  destruct shouldCreateOffer; simpl.
  - pose proof (createAndSendOffer_outbox participantId pc cs1) as Hout.
    pose proof (createAndSendOffer_get participantId pc cs1 Hpc) as Hget.
    destruct (createAndSendOffer browser participantId pc cs1)
      as [[[]|] cs2]; simpl in *.
    + split; [|intros _; by apply jsmap_has_true, jsmap_get_is_Some].
      destruct Hout as [?|[offer ?]]; eauto.
    + split; [|intros _; by apply jsmap_has_true, jsmap_get_is_Some].
      destruct Hout as [?|[offer ?]]; eauto.
  - split; [by left|]. intros _. apply jsmap_has_true, jsmap_get_is_Some.
    exists pc. exact Hpc.
Qed.

Lemma bind_returned {A B} (m : M A) (k : A → M B) cs a :
  (m cs).1 = Returned a → (m ≫= k) cs = k a (m cs).2.
Proof.
  unfold mbind, M_bind. destruct (m cs) as [[a'|] cs']; simpl; [|done].
  by intros [= ->].
Qed.

Lemma try_catch_log_returns body e cs :
  (try_catch body (log e) cs).1 = Returned ().
Proof. unfold try_catch. by destruct (body cs) as [[[]|] cs']. Qed.

Lemma dispatch_returns action cs :
  dispatch action cs =
    (Returned (),
     with_localStreamRef (trackWrites (state cs) action <$> localStreamRef cs)
       (with_state (videoReducer (state cs) action) cs)).
Proof. done. Qed.

(** Learning of a participant through [existing-participants] or
    [user-joined] never throws. *)
Lemma learn_returns participant shouldCreateOffer cs :
  ((dispatch (ADD_PARTICIPANT (fromWire participant)) ;;
    createPeerConnection browser (Participant.id participant)
      shouldCreateOffer) cs).1 = Returned ().
Proof.
  erewrite bind_returned by (by rewrite dispatch_returns).
  apply try_catch_log_returns.
Qed.

Lemma learn_outbox participant shouldCreateOffer cs :
  let cs' :=
    ((dispatch (ADD_PARTICIPANT (fromWire participant)) ;;
      createPeerConnection browser (Participant.id participant)
        shouldCreateOffer) cs).2 in
  (outbox cs' = outbox cs
   ∨ shouldCreateOffer = true
     ∧ ∃ offer,
         outbox cs' = outbox cs ++ [EvOffer (Participant.id participant) offer])
  ∧ (constructs browser = true →
     JSMap.has (Participant.id participant) (peerConnections cs') = true).
Proof.
  intros cs'. subst cs'.
  erewrite bind_returned by (by rewrite dispatch_returns).
  rewrite dispatch_returns. simpl.
  match goal with
  | |- context [createPeerConnection browser ?p ?b ?c] =>
      apply (createPeerConnection_outbox p b c)
  end.
Qed.

Lemma on_existing_participants_outbox ps cs :
  ∃ evs,
    outbox (on_existing_participants browser ps cs).2 = outbox cs ++ evs
    ∧ only_offers_to (Participant.id <$> ps) evs.
Proof.
  unfold on_existing_participants. revert cs.
  induction ps as [|p ps IH]; intros cs.
  - exists []. simpl. rewrite app_nil_r. split; [done | apply Forall_nil_2].
  - simpl forEach. erewrite bind_returned by apply learn_returns.
    destruct (learn_outbox p true cs) as [Hout _].
    match goal with
    | |- context [forEach ps ?f ?c] =>
        destruct (IH c) as (evs & Hevs & Honly); set (cs1 := c) in *
    end.
    assert (only_offers_to (Participant.id <$> p :: ps) evs) as Honly'.
    { eapply Forall_impl; [exact Honly|].
      intros ev (t & o & -> & Hin). exists t, o. split; [done|].
      rewrite fmap_cons. by apply list_elem_of_further. }
    destruct Hout as [Heq|[_ [offer Heq]]]; fold cs1 in Heq.
    + exists evs. rewrite Hevs, Heq. done.
    + exists (EvOffer (Participant.id p) offer :: evs).
      rewrite Hevs, Heq, <-app_assoc. split; [done|].
      apply Forall_cons. split; [|done].
      exists (Participant.id p), offer. split; [done|].
      rewrite fmap_cons. apply list_elem_of_here.
Qed.

Lemma on_user_joined_outbox participant cs :
  outbox (on_user_joined browser participant cs).2 = outbox cs
  ∧ (constructs browser = true →
     JSMap.has (Participant.id participant)
       (peerConnections (on_user_joined browser participant cs).2) = true).
Proof.
  destruct (learn_outbox participant false cs) as [[Hout|[? _]] Hhas];
    [|done].
  done.
Qed.
End ClientFacts.

Section SessionManager.
Context (browser : Browser).

(** C7, as amended: an offer from a sender for whom the provider holds no
    peer connection, or a closed one, is dropped: [handleOffer] writes the
    "no valid peer connection" line and returns, having created no
    connection and sent no answer.  When it holds an open connection for
    the sender and the browser fulfils the three calls, the offer becomes
    the remote description, the answer the local one, and the answer goes
    back to the sender. *)
Theorem handleOffer_needs_existing_peer_connection senderId offer cs :
  (JSMap.get senderId (peerConnections cs) = None →
     handleOffer browser senderId offer cs =
       (Returned (),
        with_console (console cs ++ [NoValidPeerConnection senderId]) cs))
  ∧ (∀ pc,
       JSMap.get senderId (peerConnections cs) = Some pc →
       signalingState pc = SigClosed →
       handleOffer browser senderId offer cs =
         (Returned (),
          with_console (console cs ++ [NoValidPeerConnection senderId]) cs))
  ∧ (∀ pc pc1 answer pc2 sock,
       JSMap.get senderId (peerConnections cs) = Some pc →
       signalingState pc ≠ SigClosed →
       setRemoteDescription browser pc offer = Some pc1 →
       createAnswer browser pc1 = Some answer →
       setLocalDescription browser pc1 answer = Some pc2 →
       socketRef cs = Some sock →
       let cs' := (handleOffer browser senderId offer cs).2 in
       JSMap.get senderId (peerConnections cs') = Some pc2
       ∧ JSMap.keys (peerConnections cs') = JSMap.keys (peerConnections cs)
       ∧ outbox cs' = outbox cs ++ [EvAnswer senderId answer]
       ∧ console cs' = console cs).
Proof.
  split_and!.
  - intros Hnone. run_handler. by rewrite Hnone.
  - intros pc Hpc Hclosed. run_handler. rewrite Hpc.
    by rewrite decide_True by done.
  - intros pc pc1 answer pc2 sock Hpc Hopen Hremote Hanswer Hlocal Hsock.
    run_handler. rewrite Hpc. rewrite decide_False by done. simpl.
    rewrite Hremote. simpl. rewrite Hanswer. simpl. rewrite Hlocal. simpl.
    rewrite Hsock. simpl. split_and!; try done.
    + rewrite jsmap_get_set. by rewrite decide_True.
    + rewrite !jsmap_keys_set.
      assert (JSMap.has senderId (peerConnections cs) = true) as Hhas.
      { unfold JSMap.has. by rewrite Hpc. }
      rewrite Hhas. unfold JSMap.has. rewrite jsmap_get_set.
      by rewrite decide_True.
Qed.

End SessionManager.

(** The same offer from [B], before and after [B] was announced by
    [user-joined]. *)
Lemma handleOffer_needs_existing_peer_connection_witness :
  let offer := {| sdpType := SdpOffer; sdp := "v=0" |} in
  let answer := {| sdpType := SdpAnswer; sdp := "v=0 answer" |} in
  let linked :=
    (receive willingBrowser
       (MsgUserJoined (Participant.make "B" "bob" true true)) readyClient).2 in
  outbox (handleOffer willingBrowser "B" offer readyClient).2 = []
  ∧ outbox (handleOffer willingBrowser "B" offer linked).2 =
      [EvAnswer "B" answer].
Proof.
  pose proof (handleOffer_needs_existing_peer_connection willingBrowser "B"
                {| sdpType := SdpOffer; sdp := "v=0" |}) as H.
  split.
  - destruct (H readyClient) as [Hdrop _]. by rewrite Hdrop.
  - destruct (H (receive willingBrowser
                   (MsgUserJoined (Participant.make "B" "bob" true true))
                   readyClient).2) as (_ & _ & Hanswer).
    edestruct Hanswer as (_ & _ & Hout & _);
      [by vm_compute | by vm_compute | by vm_compute | by vm_compute
      | by vm_compute | by vm_compute |].
    exact Hout.
Defined.

(** C7 as stated fails: with no peer connection for the sender, the
    provider creates none and answers nothing, even in a browser that
    would fulfil every call. *)
Lemma handleOffer_unknown_sender_dropped :
  let offer := {| sdpType := SdpOffer; sdp := "v=0" |} in
  let cs' := (handleOffer willingBrowser "B" offer readyClient).2 in
  JSMap.get "B" (peerConnections readyClient) = None
  ∧ JSMap.get "B" (peerConnections cs') = None
  ∧ outbox cs' = []
  ∧ console cs' = [NoValidPeerConnection "B"].
Proof. split_and!; by vm_compute. Qed.

(** C4 as stated fails once a stream changes: [A] learns of [B] through
    [user-joined] and [B] of [A] through [existing-participants], so [B]
    originates the offer; when [A] then shares its screen,
    [updatePeerConnectionStreams] makes [A] originate an offer toward [B]
    on the same peer connection. *)
Lemma renegotiation_offers_to_user_joined_peer :
  let s := run [("A", EvConnection); ("A", EvJoinRoom "r1" "alice");
                ("B", EvConnection)] in
  let pA := Participant.make "A" "alice" true true in
  let pB := Participant.make "B" "bob" true true in
  let offer := {| sdpType := SdpOffer; sdp := "v=0 offer" |} in
  let a1 := (receive willingBrowser (MsgUserJoined pB) readyClient).2 in
  let b1 :=
    (receive willingBrowser (MsgExistingParticipants [pA]) readyClient).2 in
  let a2 := (shareScreen willingBrowser a1).2 in
  (handle "B" (EvJoinRoom "r1" "bob") s).2 =
    [Server.Emit (MsgExistingParticipants [pA]);
     Server.To "r1" (MsgUserJoined pB)]
  ∧ outbox b1 = [EvOffer "A" offer]
  ∧ outbox a1 = []
  ∧ JSMap.keys (peerConnections a1) = ["B"]
  ∧ outbox a2 = [EvOffer "B" offer]
  ∧ JSMap.keys (peerConnections a2) = ["B"].
Proof. split_and!; by vm_compute. Qed.

(** C10: [CLEAR_ROOM] gives every field of the state its initial value
    except [socket], which it keeps; and [leaveRoom] always ends by
    dispatching it, so the state it leaves is that one. *)
Theorem clear_room_resets_all_but_socket (st : VideoState) (cs : ClientState) :
  let st' := videoReducer st CLEAR_ROOM in
  localStream st' = None
  ∧ participants st' = []
  ∧ isAudioEnabled st' = true
  ∧ isVideoEnabled st' = true
  ∧ isScreenSharing st' = false
  ∧ roomId st' = None
  ∧ chatMessages st' = []
  ∧ isConnected st' = false
  ∧ socket st' = socket st
  ∧ (leaveRoom cs).1 = Returned ()
  ∧ state (leaveRoom cs).2 = videoReducer (state cs) CLEAR_ROOM.
Proof.
  intros st'. split_and!; try done.
  - unfold leaveRoom, when, gets, modify, emit, dispatch, mbind, M_bind.
    simpl. by destruct (isSome (socketRef cs) && truthy (roomId (state cs))).
  - unfold leaveRoom, when, gets, modify, emit, dispatch, mbind, M_bind.
    simpl. by destruct (isSome (socketRef cs) && truthy (roomId (state cs))).
Qed.

(** C6 fails on the client: the message [A] sends carries the constant
    ["current-user"] as [senderId] (and ["You"] as [senderName]), the
    relay passes it on as it is, and [B], the only other member, stores it
    so: the text matches and nothing comes back to [A], but the sender id
    [B] sees is not [A]'s. *)
Theorem chat_message_carries_placeholder_sender (text : string) (now date : Z) :
  let s := run [("A", EvConnection); ("A", EvJoinRoom "r1" "alice");
                ("B", EvConnection); ("B", EvJoinRoom "r1" "bob")] in
  let a := (joinRoom "r1" "alice" readyClient).2 in
  let b := (joinRoom "r1" "bob" readyClient).2 in
  let m := ChatMessage.make (pretty now) "current-user" "You" text date in
  outbox (sendChatMessage text now date a).2 =
    outbox a ++ [EvChatMessage "r1" m]
  ∧ (handle "A" (EvChatMessage "r1" m) s).2 =
      [Server.To "r1" (MsgChatMessage m)]
  ∧ recipients s "A" (Server.To "r1" (MsgChatMessage m)) = {["B"]}
  ∧ chatMessages (state (receive willingBrowser (MsgChatMessage m) b).2) = [m]
  ∧ ChatMessage.message m = text
  ∧ ChatMessage.senderId m = "current-user"
  ∧ ChatMessage.senderId m ≠ "A".
Proof.
  intros s a b m. split_and!; done.
Qed.

(** * Further properties *)

Import Session.

(** ** The relay's registry *)

Lemma jsmap_set_set {V} k (v v' : V) m :
  JSMap.set k v (JSMap.set k v' m) = JSMap.set k v m.
Proof.
  induction m as [|[k' w] m IH]; simpl.
  - by rewrite decide_True.
  - case_decide as Hk; simpl.
    + by rewrite decide_True.
    + rewrite decide_False by done. by rewrite IH.
Qed.


Lemma jsmap_delete_set_fresh {V} k (v : V) m :
  JSMap.get k m = None → JSMap.delete k (JSMap.set k v m) = m.
Proof.
  induction m as [|[k' w] m IH]; simpl.
  - by rewrite decide_True.
  - case_decide as Hk; [done|]. intros Hget. simpl.
    rewrite decide_False by done. by rewrite IH.
Qed.

Lemma jsmap_delete_nil_iff {V} k (m : JSMap.t V) :
  JSMap.delete k m = [] ↔ ∀ c, c ∈ JSMap.keys m → c = k.
Proof.
  split; [apply jsmap_delete_nil_keys|]. intros Hall.
  induction m as [|[k' w] m IH]; simpl; [done|].
  assert (k' = k) as -> by (apply Hall; apply list_elem_of_here).
  rewrite decide_True by done. apply IH. intros c Hc. apply Hall.
  by apply list_elem_of_further.
Qed.

(** X1: after every sequence of events no room of the registry is empty,
    no room holds a connection twice, and every record sits under the
    connection id it carries in its [id] field. *)
Theorem registry_rooms_stay_well_formed evs r room :
  rooms (run evs) !! r = Some room →
  room ≠ []
  ∧ NoDup (JSMap.keys room)
  ∧ ∀ k p, JSMap.get k room = Some p → Participant.id p = k.
Proof.
  intros Hroom. destruct (run_wf evs r room Hroom) as (Hne & Hnd & Hk).
  split_and!; [done | done |]. intros k p. by apply keyed_by_id_get.
Qed.

Lemma registry_rooms_stay_well_formed_witness :
  let room := [("B", Participant.make "B" "bob" false true)] in
  room ≠ []
  ∧ NoDup (JSMap.keys room)
  ∧ ∀ k p, JSMap.get k room = Some p → Participant.id p = k.
Proof.
  apply (registry_rooms_stay_well_formed
           [("A", EvConnection); ("A", EvJoinRoom "r1" "alice");
            ("B", EvConnection); ("B", EvJoinRoom "r1" "bob");
            ("B", EvToggleAudio "r1" false []); ("A", EvLeaveRoom)] "r1").
  vm_compute. reflexivity.
Defined.

(** X2: as long as no connection joins a room while its entry sits in
    another one, and no join names the empty room id, a broadcast to a
    room reaches exactly the connections the registry lists for that room,
    the sender apart (and apart from the connection the room id names, if
    any); and every connection the registry lists is open and has that
    room as its [socket.roomId]. *)
Theorem orderly_broadcast_reaches_the_registered evs :
  orderly_from init evs →
  (∀ sid r m c, c ≠ r →
     (c ∈ recipients (run evs) sid (To r m)
      ↔ c ∈ JSMap.keys (participantsOf (run evs) r) ∧ c ≠ sid))
  ∧ (∀ r c, c ∈ JSMap.keys (participantsOf (run evs) r) →
       ∃ sock, sockets (run evs) !! c = Some sock
               ∧ Server.roomId sock = Some r).
Proof.
  intros Hord.
  destruct (orderly_run_agrees evs init init_agrees Hord) as [Hcur Hmatch].
  split.
  - intros sid r m c Hc. unfold recipients.
    rewrite elem_of_difference, elem_of_singleton.
    by rewrite (Hmatch r c Hc).
  - intros r c Hin.
    destruct (Hcur r c Hin) as (sock & Hsock & Hr & _). by exists sock.
Qed.

Lemma orderly_broadcast_reaches_the_registered_witness :
  let evs := [("A", EvConnection); ("A", EvJoinRoom "r1" "alice");
              ("B", EvConnection); ("B", EvJoinRoom "r1" "bob");
              ("B", EvDisconnect)] in
  "A" ∈ recipients (run evs) "B" (To "r1" (MsgUserLeft "B"))
  ↔ "A" ∈ JSMap.keys (participantsOf (run evs) "r1") ∧ "A" ≠ "B".
Proof.
  apply (proj1 (orderly_broadcast_reaches_the_registered _
                  (proj1 orderly_session))).
  done.
Defined.


Lemma handle_leave_room s sid sock r room :
  sockets s !! sid = Some sock → currentRoom sock s = Some (r, room) →
  handle sid EvLeaveRoom s =
    ({| rooms := removeParticipant sid r room (rooms s);
        adapter := sio_leave sid r (adapter s);
        sockets := sockets s |},
     [To r (MsgUserLeft sid)]).
Proof.
  intros Hsock Hcur. unfold handle, on_leave_room. by rewrite Hsock, Hcur.
Qed.

Lemma handle_disconnect s sid sock r room :
  sockets s !! sid = Some sock → currentRoom sock s = Some (r, room) →
  handle sid EvDisconnect s =
    ({| rooms := removeParticipant sid r room (rooms s);
        adapter := sio_leave_all sid (adapter s);
        sockets := delete sid (sockets s) |},
     [To r (MsgUserLeft sid)]).
Proof.
  intros Hsock Hcur. unfold handle, on_disconnect. by rewrite Hsock, Hcur.
Qed.

Lemma removeParticipant_lookup sid r room
    (m : gmap string (JSMap.t Participant.t)) r' :
  removeParticipant sid r room m !! r' =
    if decide (r' = r)
    then (if decide (JSMap.delete sid room = [])
          then None else Some (JSMap.delete sid room))
    else m !! r'.
Proof.
  unfold removeParticipant, JSMap.size.
  destruct (JSMap.delete sid room) as [|kv room'] eqn:Hdel; simpl.
  - rewrite lookup_delete. repeat case_decide; congruence.
  - rewrite lookup_insert. repeat case_decide; congruence.
Qed.

(** X3: [leave-room] of a connection that is in a room takes out that
    connection's record and nothing else: the other records of the room
    and all other rooms stay as they are, the room itself goes exactly
    when no other connection is left in it, [user-left] is sent to the
    room, and socket.io no longer has the connection in it.  A
    [disconnect] does the same to the registry and takes the connection
    out of every socket.io room. *)
Theorem leave_room_removes_only_the_sender s sid sock r room :
  sockets s !! sid = Some sock → currentRoom sock s = Some (r, room) →
  let s' := (handle sid EvLeaveRoom s).1 in
  let sd := (handle sid EvDisconnect s).1 in
  (handle sid EvLeaveRoom s).2 = [To r (MsgUserLeft sid)]
  ∧ participantsOf s' r = JSMap.delete sid room
  ∧ JSMap.get sid (participantsOf s' r) = None
  ∧ (∀ c, c ≠ sid → JSMap.get c (participantsOf s' r) = JSMap.get c room)
  ∧ (∀ r', r' ≠ r → rooms s' !! r' = rooms s !! r')
  ∧ (rooms s' !! r = None ↔ ∀ c, c ∈ JSMap.keys room → c = sid)
  ∧ (sid ∉ members s' r)
  ∧ rooms sd = rooms s'
  ∧ (handle sid EvDisconnect s).2 = [To r (MsgUserLeft sid)]
  ∧ sockets sd !! sid = None
  ∧ (∀ r', sid ∉ members sd r').
Proof.
  intros Hsock Hcur s' sd. subst s' sd.
  rewrite (handle_leave_room s sid sock r room Hsock Hcur).
  rewrite (handle_disconnect s sid sock r room Hsock Hcur). simpl.
  apply currentRoom_Some in Hcur as (_ & _ & Hroom).
  assert (participantsOf
            {| rooms := removeParticipant sid r room (rooms s);
               adapter := sio_leave sid r (adapter s);
               sockets := sockets s |} r = JSMap.delete sid room) as Hp.
  { unfold participantsOf. simpl. rewrite (participantsOf_remove _ _ _ _ _ Hroom).
    by rewrite decide_True. }
  split_and!; try done.
  - rewrite Hp, jsmap_get_delete. by rewrite decide_True.
  - intros c Hc. rewrite Hp, jsmap_get_delete. by rewrite decide_False.
  - intros r' Hr'. rewrite removeParticipant_lookup. by rewrite decide_False.
  - rewrite removeParticipant_lookup, decide_True by done.
    rewrite <-jsmap_delete_nil_iff. by case_decide.
  - unfold members. simpl. rewrite members_sio_leave, decide_True by done.
    rewrite elem_of_difference, elem_of_singleton. tauto.
  - apply lookup_delete_eq.
  - intros r'. unfold members. simpl. rewrite members_sio_leave_all.
    rewrite elem_of_difference, elem_of_singleton. tauto.
Qed.

Lemma leave_room_removes_only_the_sender_witness :
  let s := run [("A", EvConnection); ("A", EvJoinRoom "r1" "alice");
                ("B", EvConnection); ("B", EvJoinRoom "r1" "bob")] in
  let s' := (handle "B" EvLeaveRoom s).1 in
  (handle "B" EvLeaveRoom s).2 = [To "r1" (MsgUserLeft "B")]
  ∧ participantsOf s' "r1" = [("A", Participant.make "A" "alice" true true)]
  ∧ ("B" ∉ members s' "r1").
Proof.
  pose proof (leave_room_removes_only_the_sender
                (run [("A", EvConnection); ("A", EvJoinRoom "r1" "alice");
                      ("B", EvConnection); ("B", EvJoinRoom "r1" "bob")])
                "B" {| userName := Some "bob"; Server.roomId := Some "r1" |}
                "r1"
                [("A", Participant.make "A" "alice" true true);
                 ("B", Participant.make "B" "bob" true true)]) as H.
  destruct H as (Hout & Hp & _ & _ & _ & _ & Hmem & _);
    [by vm_compute | by vm_compute |].
  split_and!; [exact Hout | exact Hp | exact Hmem].
Defined.



(** ** Toggles and the snapshot of a join *)

Lemma toggle_rooms_set sid r (f : Participant.t → Participant.t) room p
    (m : gmap string (JSMap.t Participant.t)) :
  <[r := JSMap.set sid (f p) room]> m !! r =
    Some (JSMap.set sid (f p) room)
  ∧ JSMap.get sid (JSMap.set sid (f p) room) = Some (f p).
Proof.
  split; [apply lookup_insert_eq|]. rewrite jsmap_get_set.
  by rewrite decide_True.
Qed.

(** X5: a toggle from a connection that has no record in the room the
    payload names changes nothing and is not broadcast; of two toggles of
    the same kind, audio or video, the later one decides, so repeating a
    toggle changes nothing more; and an audio and a video toggle give the
    same registry in either order. *)
Theorem toggles_compose s sid r a a' v v' rest rest' :
  (JSMap.get sid (participantsOf s r) = None →
     on_toggle_audio sid r a rest s = (s, [])
     ∧ on_toggle_video sid r v rest s = (s, []))
  ∧ (on_toggle_audio sid r a' rest' (on_toggle_audio sid r a rest s).1).1 =
      (on_toggle_audio sid r a' rest' s).1
  ∧ (on_toggle_video sid r v' rest' (on_toggle_video sid r v rest s).1).1 =
      (on_toggle_video sid r v' rest' s).1
  ∧ (on_toggle_video sid r v rest' (on_toggle_audio sid r a rest s).1).1 =
      (on_toggle_audio sid r a rest (on_toggle_video sid r v rest' s).1).1.
Proof.
  unfold participantsOf.
  destruct (rooms s !! r) as [room|] eqn:Hroom;
    [destruct (JSMap.get sid room) as [p|] eqn:Hp|];
    unfold on_toggle_audio, on_toggle_video; rewrite ?Hroom; simpl;
    rewrite ?Hp; simpl; rewrite ?Hroom; simpl; rewrite ?Hp; simpl;
    try done.
  split_and!; [done| | |].
  - rewrite lookup_insert_eq, jsmap_get_set, decide_True by done. simpl.
    by rewrite insert_insert_eq, jsmap_set_set.
  - rewrite lookup_insert_eq, jsmap_get_set, decide_True by done. simpl.
    by rewrite insert_insert_eq, jsmap_set_set.
  - rewrite !lookup_insert_eq, !jsmap_get_set, !decide_True by done. simpl.
    by rewrite !insert_insert_eq, !jsmap_set_set.
Qed.

Lemma toggles_compose_witness :
  let s := run [("A", EvConnection); ("A", EvJoinRoom "r1" "alice");
                ("B", EvConnection)] in
  on_toggle_audio "B" "r1" false [] s = (s, [])
  ∧ on_toggle_video "B" "r1" false [] s = (s, []).
Proof.
  refine (proj1 (toggles_compose _ "B" "r1" false false false false [] []) _).
  by vm_compute.
Defined.

Lemma join_emissions_wf s sid roomId userName :
  registry_wf s →
  (on_join_room sid roomId userName s).2 =
    (if decide (others sid (participantsOf s roomId) = [])
     then []
     else [Emit (MsgExistingParticipants
                   (others sid (participantsOf s roomId)))])
    ++ [To roomId (MsgUserJoined (newParticipant sid userName))].
Proof.
  intros Hwf. unfold on_join_room. simpl. rewrite join_room_lookup. f_equal.
  rewrite existingParticipants_others, others_set_self.
  - by destruct (others sid (participantsOf s roomId)).
  - apply keyed_by_id_set; [|done]. unfold participantsOf.
    destruct (rooms s !! roomId) as [room|] eqn:Hroom; simpl.
    + by eapply Hwf.
    + apply Forall_nil_2.
Qed.

Lemma jsmap_get_elem_of {V} k (v : V) m :
  JSMap.get k m = Some v → (k, v) ∈ m.
Proof.
  induction m as [|[k' w] m IH]; simpl; [done|]. case_decide as Hk.
  - intros [= ->]. subst. apply list_elem_of_here.
  - intros Hget. apply list_elem_of_further. by apply IH.
Qed.

Lemma jsmap_elem_of_get {V} k (v : V) m :
  NoDup (JSMap.keys m) → (k, v) ∈ m → JSMap.get k m = Some v.
Proof.
  unfold JSMap.keys. induction m as [|[k' w] m IH]; simpl.
  - intros _ Hin. by apply not_elem_of_nil in Hin.
  - intros [Hnotin Hnd]%NoDup_cons.
    intros [Heq|Hin]%elem_of_cons.
    + injection Heq as -> ->. by rewrite decide_True.
    + case_decide as Hk; [|by apply IH]. subst k'. exfalso.
      apply Hnotin. apply list_elem_of_fmap. by exists (k, v).
Qed.

Lemma elem_of_others sid (room : JSMap.t Participant.t) q :
  q ∈ others sid room ↔ ∃ k, k ≠ sid ∧ (k, q) ∈ room.
Proof.
  unfold others. rewrite list_elem_of_fmap. split.
  - intros ([k q'] & -> & [Hk Hin]%list_elem_of_filter). by exists k.
  - intros (k & Hk & Hin). exists (k, q). split; [done|].
    by apply list_elem_of_filter.
Qed.

(** In a well-formed room the record of connection [c] is listed to any
    other joiner, and it is the only record listed with [c]'s id. *)
Lemma others_lists_record sid c room p :
  room_wf room → c ≠ sid → JSMap.get c room = Some p →
  p ∈ others sid room
  ∧ ∀ q, q ∈ others sid room → Participant.id q = c → q = p.
Proof.
  intros (_ & Hnd & Hkeyed) Hc Hp. split.
  - apply elem_of_others. exists c. split; [done|].
    by apply jsmap_get_elem_of.
  - intros q (k & Hk & Hin)%elem_of_others Hid.
    pose proof (jsmap_elem_of_get k q room Hnd Hin) as Hq.
    pose proof (keyed_by_id_get room k q Hkeyed Hq). congruence.
Qed.

Lemma run_app evs1 evs2 :
  run (evs1 ++ evs2) = foldl (λ s e, (handle e.1 e.2 s).1) (run evs1) evs2.
Proof. unfold run. by rewrite foldl_app. Qed.

(** A handler writes under its own connection's key only. *)
Lemma handle_other_key sid ev s r k :
  k ≠ sid →
  JSMap.get k (participantsOf (handle sid ev s).1 r) =
    JSMap.get k (participantsOf s r).
Proof.
  intros Hk. unfold handle.
  destruct (sockets s !! sid) as [sock|] eqn:Hsid.
  - destruct ev as [|rj nj| | | |rt b rest|rt b rest| | |]; try done.
    + rewrite participantsOf_join. case_decide; [|done]. subst.
      by rewrite jsmap_get_set, decide_False.
    + rewrite on_toggle_audio_get. by rewrite decide_False by (by intros [_ ?]).
    + rewrite on_toggle_video_get. by rewrite decide_False by (by intros [_ ?]).
    + unfold on_disconnect.
      destruct (currentRoom sock s) as [[r0 room0]|] eqn:Hcur; [|done].
      apply currentRoom_Some in Hcur as (_ & _ & Hroom0).
      unfold participantsOf at 1. simpl.
      rewrite (participantsOf_remove _ _ _ _ _ Hroom0).
      case_decide; [|done]. subst.
      rewrite jsmap_get_delete, decide_False by done.
      unfold participantsOf. by rewrite Hroom0.
    + unfold on_leave_room.
      destruct (currentRoom sock s) as [[r0 room0]|] eqn:Hcur; [|done].
      apply currentRoom_Some in Hcur as (_ & _ & Hroom0).
      unfold participantsOf at 1. simpl.
      rewrite (participantsOf_remove _ _ _ _ _ Hroom0).
      case_decide; [|done]. subst.
      rewrite jsmap_get_delete, decide_False by done.
      unfold participantsOf. by rewrite Hroom0.
  - by destruct ev.
Qed.

(** The flag of a record that the toggle of kind [audio] sets. *)
Lemma flag_kept_by_event audio c e s r (q : Participant.t) :
  (e.1 = c → resetsFlag audio e.2 = false) →
  JSMap.get c (participantsOf s r) = Some q →
  ∃ q', JSMap.get c (participantsOf (handle e.1 e.2 s).1 r) = Some q'
        ∧ Participant.name q' = Participant.name q
        ∧ (if audio then Participant.audioEnabled q'
           else Participant.videoEnabled q') =
          (if audio then Participant.audioEnabled q
           else Participant.videoEnabled q).
Proof.
  destruct e as [sid ev]. simpl. intros Hquiet Hq.
  destruct (decide (sid = c)) as [->|Hsid].
  - specialize (Hquiet eq_refl). unfold handle.
    destruct (sockets s !! c) as [sock|] eqn:Hsock.
    + destruct ev as [|rj nj| | | |rt b rest|rt b rest| | |];
        try done; try (by exists q).
      * destruct audio; [done|]. rewrite on_toggle_audio_get.
        case_decide; [|by exists q]. rewrite Hq. simpl. by eexists.
      * destruct audio; [|done]. rewrite on_toggle_video_get.
        case_decide; [|by exists q]. rewrite Hq. simpl. by eexists.
    + destruct ev; try done; by exists q.
  - exists q. by rewrite handle_other_key by done.
Qed.

Lemma flag_kept_by_events audio c evs s r (q : Participant.t) :
  Forall (λ e, e.1 = c → resetsFlag audio e.2 = false) evs →
  JSMap.get c (participantsOf s r) = Some q →
  ∃ q', JSMap.get c
          (participantsOf (foldl (λ s e, (handle e.1 e.2 s).1) s evs) r) =
          Some q'
        ∧ Participant.name q' = Participant.name q
        ∧ (if audio then Participant.audioEnabled q'
           else Participant.videoEnabled q') =
          (if audio then Participant.audioEnabled q
           else Participant.videoEnabled q).
Proof.
  intros Hevs. revert s q.
  induction Hevs as [|e evs He _ IH]; intros s q Hq; [by exists q|].
  destruct (flag_kept_by_event audio c e s r q He Hq)
    as (q1 & Hq1 & Hname1 & Hflag1).
  destruct (IH _ _ Hq1) as (q2 & Hq2 & Hname2 & Hflag2).
  exists q2. simpl. split_and!; [done | congruence | congruence].
Qed.

(** X6: what a joiner is told about a participant is that participant's
    record with the flags its last toggles left.  When connection [c] has
    toggled its audio (or video) in room [r] and has since sent no
    [join-room], [leave-room], disconnect or toggle of that kind, whatever
    else it and the other connections have sent, the
    [existing-participants] list sent to any other connection joining [r]
    holds one record of [c], and that record has [c]'s name and the flag
    of that toggle; right after the toggle it is [c]'s record with just
    that flag set. *)
Theorem existing_participants_carry_current_flags
    audio evs1 evs2 sid c r b rest userName p :
  c ≠ sid →
  is_Some (sockets (run evs1) !! c) →
  JSMap.get c (participantsOf (run evs1) r) = Some p →
  Forall (λ e, e.1 = c → resetsFlag audio e.2 = false) evs2 →
  let toggle :=
    if audio then EvToggleAudio r b rest else EvToggleVideo r b rest in
  let s := run (evs1 ++ [(c, toggle)] ++ evs2) in
  ∃ existing q,
    (on_join_room sid r userName s).2 =
      [Emit (MsgExistingParticipants existing);
       To r (MsgUserJoined (newParticipant sid userName))]
    ∧ q ∈ existing
    ∧ Participant.id q = c
    ∧ Participant.name q = Participant.name p
    ∧ (if audio then Participant.audioEnabled q
       else Participant.videoEnabled q) = b
    ∧ (∀ q', q' ∈ existing → Participant.id q' = c → q' = q)
    ∧ (evs2 = [] →
       q = if audio then setAudioEnabled b p else setVideoEnabled b p).
Proof.
  intros Hc [sock Hsock] Hp Hevs2 toggle s.
  set (p1 := if audio then setAudioEnabled b p else setVideoEnabled b p).
  assert (JSMap.get c (participantsOf (run (evs1 ++ [(c, toggle)])) r) =
            Some p1) as Hp1.
  { rewrite run_snoc. simpl. unfold handle. rewrite Hsock.
    subst toggle p1. destruct audio.
    - rewrite on_toggle_audio_get, decide_True by done. by rewrite Hp.
    - rewrite on_toggle_video_get, decide_True by done. by rewrite Hp. }
  destruct (flag_kept_by_events audio c evs2 _ r p1 Hevs2 Hp1)
    as (q & Hq & Hname & Hflag).
  assert (s = foldl (λ s e, (handle e.1 e.2 s).1)
                (run (evs1 ++ [(c, toggle)])) evs2) as Hs.
  { subst s. by rewrite app_assoc, run_app. }
  rewrite <-Hs in Hq.
  assert (room_wf (participantsOf s r)) as Hwf.
  { destruct (participantsOf_wf (evs1 ++ [(c, toggle)] ++ evs2) r)
      as [Hnil|Hwf]; [|done].
    fold s in Hnil. by rewrite Hnil in Hq. }
  destruct (others_lists_record sid c _ q Hwf Hc Hq) as [Hin Huniq].
  exists (others sid (participantsOf s r)), q. split_and!.
  - unfold s. rewrite on_join_room_emissions. fold s.
    rewrite decide_False; [done|].
    intros Hnil. rewrite Hnil in Hin. by apply not_elem_of_nil in Hin.
  - done.
  - destruct Hwf as (_ & _ & Hkeyed). by eapply keyed_by_id_get.
  - rewrite Hname. subst p1. by destruct audio.
  - rewrite Hflag. subst p1. by destruct audio.
  - done.
  - intros ->. simpl in Hs. rewrite Hs in Hq. congruence.
Qed.

Lemma existing_participants_carry_current_flags_witness :
  let evs :=
    [("A", EvConnection); ("A", EvJoinRoom "r1" "alice");
     ("B", EvConnection)]
    ++ [("A", EvToggleAudio "r1" false [])]
    ++ [("B", EvJoinRoom "r2" "bob"); ("A", EvToggleVideo "r1" false []);
        ("B", EvLeaveRoom)] in
  ∃ existing q,
    (on_join_room "B" "r1" "bob" (run evs)).2 =
      [Emit (MsgExistingParticipants existing);
       To "r1" (MsgUserJoined (newParticipant "B" "bob"))]
    ∧ q ∈ existing
    ∧ Participant.id q = "A"
    ∧ Participant.audioEnabled q = false.
Proof.
  destruct (existing_participants_carry_current_flags true
              [("A", EvConnection); ("A", EvJoinRoom "r1" "alice");
               ("B", EvConnection)]
              [("B", EvJoinRoom "r2" "bob");
               ("A", EvToggleVideo "r1" false []); ("B", EvLeaveRoom)]
              "B" "A" "r1" false [] "bob"
              (Participant.make "A" "alice" true true))
    as (existing & q & Hout & Hin & Hid & _ & Hflag & _).
  - done.
  - eexists. by vm_compute.
  - by vm_compute.
  - repeat (apply Forall_cons; split; [simpl; by intros ?|]).
    apply Forall_nil_2.
  - exists existing, q. split_and!; [exact Hout | exact Hin | exact Hid |].
    exact Hflag.
Defined.

Lemma ids_of_others sid (room : JSMap.t Participant.t) c :
  keyed_by_id room →
  c ∈ Participant.id <$> others sid room ↔ c ∈ JSMap.keys room ∧ c ≠ sid.
Proof.
  intros Hkeyed. unfold JSMap.keys. rewrite !list_elem_of_fmap. split.
  - intros (q & -> & (k & Hk & Hin)%elem_of_others).
    pose proof (proj1 (Forall_forall _ _) Hkeyed _ Hin) as Hid.
    simpl in Hid. rewrite Hid. split; [by exists (k, q) | done].
  - intros [([k q] & -> & Hin) Hc]. simpl in Hc. exists q.
    pose proof (proj1 (Forall_forall _ _) Hkeyed _ Hin) as Hid.
    split; [done|]. apply elem_of_others. by exists k.
Qed.

Lemma orderly_two_connections :
  orderly_from init [("A", EvConnection); ("A", EvJoinRoom "r1" "alice");
                     ("B", EvConnection)].
Proof.
  assert (orderly_from init [("A", EvConnection)]) as H1 by done.
  apply (proj2 (orderly_from_snoc init [_; _] _)). split; [|done].
  apply (proj2 (orderly_from_snoc init [_] _)). split; [exact H1|].
  by eapply (first_join_orderly [("A", EvConnection)] "A").
Qed.

(** X7: in an orderly session the [user-joined] notice of a join reaches
    exactly the connections whose records the joiner is sent in
    [existing-participants] (the room named by a connection's own id
    apart): whoever the joiner is told about is told about the joiner. *)
Theorem user_joined_reaches_the_listed_participants evs sid r userName c :
  orderly_from init evs → orderly (run evs) sid (EvJoinRoom r userName) →
  c ≠ r →
  let s' := (on_join_room sid r userName (run evs)).1 in
  c ∈ recipients s' sid (To r (MsgUserJoined (newParticipant sid userName)))
  ↔ c ∈ Participant.id <$> others sid (participantsOf (run evs) r).
Proof.
  intros Hord Hjoin Hc s'.
  pose proof (orderly_run_agrees evs init init_agrees Hord) as Hagr.
  destruct (on_join_room_agrees sid r userName _ Hjoin Hagr) as [_ Hmatch].
  rewrite ids_of_others by apply participantsOf_keyed.
  subst s'. unfold recipients.
  rewrite elem_of_difference, elem_of_singleton.
  rewrite <-(Hmatch r c Hc), participantsOf_join, decide_True by done.
  rewrite elem_of_keys_set. tauto.
Qed.

Lemma user_joined_reaches_the_listed_participants_witness :
  let evs := [("A", EvConnection); ("A", EvJoinRoom "r1" "alice");
              ("B", EvConnection)] in
  let s' := (on_join_room "B" "r1" "bob" (run evs)).1 in
  "A" ∈ recipients s' "B"
          (To "r1" (MsgUserJoined (newParticipant "B" "bob")))
  ↔ "A" ∈ Participant.id <$> others "B" (participantsOf (run evs) "r1").
Proof.
  apply (user_joined_reaches_the_listed_participants
           [("A", EvConnection); ("A", EvJoinRoom "r1" "alice");
            ("B", EvConnection)] "B" "r1" "bob" "A").
  - exact orderly_two_connections.
  - apply (first_join_orderly _ "B"
             {| userName := None; Server.roomId := None |});
      [exact orderly_two_connections | by vm_compute | done | done].
  - done.
Defined.

(** ** Signaling: who receives an offer, an answer or a candidate *)

(** What one event does to socket.io's rooms and to the set of open
    connections. *)
Lemma handle_adapter sid ev s :
  adapter (handle sid ev s).1 =
    match sockets s !! sid, ev with
    | None, EvConnection => sio_join sid sid (adapter s)
    | Some _, EvJoinRoom r _ => sio_join sid r (adapter s)
    | Some sock, EvLeaveRoom =>
        match currentRoom sock s with
        | Some (r, _) => sio_leave sid r (adapter s)
        | None => adapter s
        end
    | Some _, EvDisconnect => sio_leave_all sid (adapter s)
    | _, _ => adapter s
    end.
Proof.
  unfold handle. destruct (sockets s !! sid) as [sock|]; destruct ev;
    simpl; try done.
  - unfold on_toggle_audio. by repeat case_match.
  - unfold on_toggle_video. by repeat case_match.
  - unfold on_disconnect. by destruct (currentRoom sock s) as [[??]|].
  - unfold on_leave_room. by destruct (currentRoom sock s) as [[??]|].
Qed.

Lemma handle_sockets sid ev s :
  sockets (handle sid ev s).1 =
    match sockets s !! sid, ev with
    | None, EvConnection =>
        <[sid := {| userName := None; Server.roomId := None |}]> (sockets s)
    | Some _, EvJoinRoom r n =>
        <[sid := {| userName := Some n; Server.roomId := Some r |}]>
          (sockets s)
    | Some _, EvDisconnect => delete sid (sockets s)
    | _, _ => sockets s
    end.
Proof.
  unfold handle. destruct (sockets s !! sid) as [sock|]; destruct ev;
    simpl; try done.
  - unfold on_toggle_audio. by repeat case_match.
  - unfold on_toggle_video. by repeat case_match.
  - unfold on_disconnect. by destruct (currentRoom sock s) as [[??]|].
  - unfold on_leave_room. by destruct (currentRoom sock s) as [[??]|].
Qed.

Lemma joined_snoc evs e c r :
  joined evs c r → joined (evs ++ [e]) c r.
Proof. intros [n Hin]. exists n. apply elem_of_app. by left. Qed.

Lemma joined_last evs c r n : joined (evs ++ [(c, EvJoinRoom r n)]) c r.
Proof. exists n. apply elem_of_app. right. apply list_elem_of_here. Qed.

(** The members of a socket.io room are open connections that joined it,
    or the connection the room is named after; an open connection stays in
    the room named after it unless it joins and leaves a room of that
    name; and [socket.roomId] is a room the connection joined. *)
Lemma adapter_history evs :
  (∀ c r, c ∈ members (run evs) r →
     is_Some (sockets (run evs) !! c) ∧ (c = r ∨ joined evs c r))
  ∧ (∀ c, is_Some (sockets (run evs) !! c) → ¬ joined evs c c →
       c ∈ members (run evs) c)
  ∧ (∀ c sock r, sockets (run evs) !! c = Some sock →
       Server.roomId sock = Some r → joined evs c r).
Proof.
  induction evs as [|[sid ev] evs (IH1 & IH2 & IH3)] using rev_ind.
  - split_and!.
    + intros c r. unfold members, run. simpl. rewrite lookup_total_empty.
      intros Hin. by apply not_elem_of_empty in Hin.
    + intros c [sock Hsock]. unfold run in Hsock. simpl in Hsock.
      by rewrite lookup_empty in Hsock.
    + intros c sock r Hsock. unfold run in Hsock. simpl in Hsock.
      by rewrite lookup_empty in Hsock.
  - rewrite run_snoc. simpl. unfold members in *.
    rewrite handle_adapter, handle_sockets.
    set (s := run evs) in *.
    destruct (sockets s !! sid) as [sock|] eqn:Hsid.
    + destruct ev as [|rj nj| | | | | | | |]; try (split_and!;
          [ intros c r Hin; destruct (IH1 c r Hin) as [? [?|?]];
            eauto using joined_snoc
          | intros c Hc Hj; apply IH2; [done|]; intros Hj';
            apply Hj; by apply joined_snoc
          | intros c sock' r Hs Hr; eauto using joined_snoc ]).
      * (* join-room *)
        split_and!.
        -- intros c r. rewrite members_sio_join.
           destruct (decide (r = rj)) as [->|Hr].
           ++ rewrite elem_of_union, elem_of_singleton. intros [->|Hin].
              ** split; [by rewrite lookup_insert_eq|].
                 right. apply joined_last.
              ** destruct (IH1 c rj Hin) as [Hop Hj]. split.
                 { destruct (decide (c = sid)) as [->|Hc];
                     [by rewrite lookup_insert_eq
                     |by rewrite lookup_insert_ne]. }
                 destruct Hj; eauto using joined_snoc.
           ++ intros Hin. destruct (IH1 c r Hin) as [Hop Hj]. split.
              { destruct (decide (c = sid)) as [->|Hc];
                  [by rewrite lookup_insert_eq
                  |by rewrite lookup_insert_ne]. }
              destruct Hj; eauto using joined_snoc.
        -- intros c Hc Hj. rewrite members_sio_join.
           assert (c ∈ adapter s !!! c) as Hin.
           { apply IH2.
             - destruct (decide (c = sid)) as [->|Hne]; [by eexists|].
               by rewrite lookup_insert_ne in Hc.
             - intros Hj'. apply Hj. by apply joined_snoc. }
           case_decide; [|done]. subst. apply elem_of_union. by right.
        -- intros c sock' r.
           destruct (decide (c = sid)) as [->|Hc].
           ++ rewrite lookup_insert_eq. intros [= <-]. simpl.
              intros [= <-]. apply joined_last.
           ++ rewrite lookup_insert_ne by done.
              intros Hs Hr. eauto using joined_snoc.
      * (* disconnect *)
        split_and!.
        -- intros c r. rewrite members_sio_leave_all.
           rewrite elem_of_difference, elem_of_singleton.
           intros [Hin Hc]. destruct (IH1 c r Hin) as [Hop Hj].
           split; [by rewrite lookup_delete_ne|].
           destruct Hj; eauto using joined_snoc.
        -- intros c Hc Hj. rewrite members_sio_leave_all.
           destruct (decide (c = sid)) as [->|Hne].
           { rewrite lookup_delete_eq in Hc. by destruct Hc. }
           rewrite lookup_delete_ne in Hc by done.
           rewrite elem_of_difference, elem_of_singleton. split; [|done].
           apply IH2; [done|]. intros Hj'. apply Hj. by apply joined_snoc.
        -- intros c sock' r Hs Hr.
           destruct (decide (c = sid)) as [->|Hne].
           { by rewrite lookup_delete_eq in Hs. }
           rewrite lookup_delete_ne in Hs by done.
           eauto using joined_snoc.
      * (* leave-room *)
        destruct (currentRoom sock s) as [[r0 room0]|] eqn:Hcur.
        -- apply currentRoom_Some in Hcur as Hcur'.
           split_and!.
           ++ intros c r. rewrite members_sio_leave.
              case_decide as Hr.
              ** subst r. rewrite elem_of_difference.
                 intros [Hin _]. destruct (IH1 c r0 Hin) as [? [?|?]];
                   eauto using joined_snoc.
              ** intros Hin. destruct (IH1 c r Hin) as [? [?|?]];
                   eauto using joined_snoc.
           ++ intros c Hc Hj. rewrite members_sio_leave.
              assert (c ∈ adapter s !!! c) as Hin.
              { apply IH2; [done|]. intros Hj'. apply Hj.
                by apply joined_snoc. }
              case_decide as Hr; [|done]. subst r0.
              rewrite elem_of_difference, elem_of_singleton.
              split; [done|]. intros ->. apply Hj, joined_snoc.
              eapply IH3; [exact Hsid|]. apply Hcur'.
           ++ intros c sock' r Hs Hr. eauto using joined_snoc.
        -- split_and!;
             [ intros c r Hin; destruct (IH1 c r Hin) as [? [?|?]];
               eauto using joined_snoc
             | intros c Hc Hj; apply IH2; [done|]; intros Hj';
               apply Hj; by apply joined_snoc
             | intros c sock' r Hs Hr; eauto using joined_snoc ].
    + destruct ev as [|rj nj| | | | | | | |]; try (split_and!;
          [ intros c r Hin; destruct (IH1 c r Hin) as [? [?|?]];
            eauto using joined_snoc
          | intros c Hc Hj; apply IH2; [done|]; intros Hj';
            apply Hj; by apply joined_snoc
          | intros c sock' r Hs Hr; eauto using joined_snoc ]).
      (* connection *)
      split_and!.
      * intros c r. rewrite members_sio_join.
        destruct (decide (r = sid)) as [->|Hr].
        -- rewrite elem_of_union, elem_of_singleton. intros [->|Hin].
           ++ split; [by rewrite lookup_insert_eq | by left].
           ++ destruct (IH1 c sid Hin) as [Hop Hj]. split.
              { destruct (decide (c = sid)) as [->|Hc];
                  [by rewrite lookup_insert_eq
                  |by rewrite lookup_insert_ne]. }
              destruct Hj; eauto using joined_snoc.
        -- intros Hin. destruct (IH1 c r Hin) as [Hop Hj]. split.
           { destruct (decide (c = sid)) as [->|Hc];
               [by rewrite lookup_insert_eq
               |by rewrite lookup_insert_ne]. }
           destruct Hj; eauto using joined_snoc.
      * intros c Hc Hj. rewrite members_sio_join.
        destruct (decide (c = sid)) as [->|Hne].
        -- apply elem_of_union. left. by apply elem_of_singleton.
        -- rewrite lookup_insert_ne in Hc by done. apply IH2; [done|].
           intros Hj'. apply Hj. by apply joined_snoc.
      * intros c sock' r.
        destruct (decide (c = sid)) as [->|Hc].
        -- rewrite lookup_insert_eq. by intros [= <-].
        -- rewrite lookup_insert_ne by done.
           intros Hs Hr. eauto using joined_snoc.
Qed.

(** X8: an offer, an answer or a candidate is relayed unchanged, tagged
    with the sender's id, and reaches the connection named as target and
    no other, provided the target is open, is not the sender, and no
    connection has joined a room whose id is the target's connection
    id. *)
Theorem signaling_reaches_the_target_only
    evs sid target offer answer candidate :
  is_Some (sockets (run evs) !! sid) →
  is_Some (sockets (run evs) !! target) →
  target ≠ sid →
  (∀ c, ¬ joined evs c target) →
  let s := run evs in
  handle sid (EvOffer target offer) s = (s, [To target (MsgOffer sid offer)])
  ∧ handle sid (EvAnswer target answer) s =
      (s, [To target (MsgAnswer sid answer)])
  ∧ handle sid (EvIceCandidate target candidate) s =
      (s, [To target (MsgIceCandidate sid candidate)])
  ∧ ∀ m, recipients s sid (To target m) = {[target]}.
Proof.
  intros [sock Hsid] Htarget Hne Hnone s. unfold handle. subst s.
  rewrite Hsid. split_and!; [done..|]. intros m. unfold recipients.
  destruct (adapter_history evs) as (H1 & H2 & _).
  apply set_eq. intros c.
  rewrite elem_of_difference, !elem_of_singleton. split.
  - intros [Hin _]. destruct (H1 c target Hin) as [_ [?|Hj]]; [done|].
    by apply Hnone in Hj.
  - intros ->. split; [|done]. apply H2; [done|]. apply Hnone.
Qed.

Lemma signaling_reaches_the_target_only_witness :
  let evs := [("A", EvConnection); ("A", EvJoinRoom "r1" "alice");
              ("B", EvConnection); ("B", EvJoinRoom "r1" "bob")] in
  let offer := {| sdpType := SdpOffer; sdp := "v=0" |} in
  handle "B" (EvOffer "A" offer) (run evs) =
    (run evs, [To "A" (MsgOffer "B" offer)])
  ∧ recipients (run evs) "B" (To "A" (MsgOffer "B" offer)) = {["A"]}.
Proof.
  intros evs offer.
  destruct (signaling_reaches_the_target_only evs "B" "A" offer offer "c")
    as (Hoffer & _ & _ & Hto).
  - eexists. by vm_compute.
  - eexists. by vm_compute.
  - done.
  - intros c [n Hin]. subst evs.
    repeat (apply elem_of_cons in Hin as [Hin|Hin]; [done|]).
    by apply not_elem_of_nil in Hin.
  - split; [exact Hoffer | apply Hto].
Defined.

Lemma members_kept_by_event c e s r :
  (e.1 = c → leavesRooms e.2 = false) →
  c ∈ members s r → c ∈ members (handle e.1 e.2 s).1 r.
Proof.
  destruct e as [sid ev]. simpl. intros Hstays Hin. unfold members in *.
  rewrite handle_adapter.
  destruct (sockets s !! sid) as [sock|] eqn:Hsid.
  - destruct ev as [|rj nj| | | | | | | |]; try done.
    + rewrite members_sio_join. case_decide; [|done]. subst.
      apply elem_of_union. by right.
    + rewrite members_sio_leave_all.
      rewrite elem_of_difference, elem_of_singleton. split; [done|].
      intros ->. by specialize (Hstays eq_refl).
    + destruct (currentRoom sock s) as [[r0 room0]|]; [|done].
      rewrite members_sio_leave. case_decide; [|done]. subst.
      rewrite elem_of_difference, elem_of_singleton. split; [done|].
      intros ->. by specialize (Hstays eq_refl).
  - destruct ev; try done.
    rewrite members_sio_join. case_decide; [|done]. subst.
    apply elem_of_union. by right.
Qed.

Lemma members_kept_by_events c evs s r :
  Forall (λ e, e.1 = c → leavesRooms e.2 = false) evs →
  c ∈ members s r →
  c ∈ members (foldl (λ s e, (handle e.1 e.2 s).1) s evs) r.
Proof.
  intros Hevs. revert s.
  induction Hevs as [|e evs He _ IH]; intros s Hin; [done|].
  simpl. apply IH. by apply members_kept_by_event.
Qed.

(** X9: room ids and connection ids share one name space: an open
    connection [c] that joins the room whose id is another connection's id
    is among the recipients of every offer, answer and candidate the
    others address to that id, after every later sequence of events in
    which [c] sends neither [leave-room] nor a disconnect; and the relay
    forwards each of them to that id whoever the open sender is. *)
Theorem join_of_room_named_by_connection_overhears
    evs1 evs2 c sid target n :
  is_Some (sockets (run evs1) !! c) → c ≠ sid →
  Forall (λ e, e.1 = c → leavesRooms e.2 = false) evs2 →
  let s := run (evs1 ++ [(c, EvJoinRoom target n)] ++ evs2) in
  (∀ m, c ∈ recipients s sid (To target m))
  ∧ (is_Some (sockets s !! sid) →
     ∀ offer answer candidate,
       (handle sid (EvOffer target offer) s).2 =
         [To target (MsgOffer sid offer)]
       ∧ (handle sid (EvAnswer target answer) s).2 =
           [To target (MsgAnswer sid answer)]
       ∧ (handle sid (EvIceCandidate target candidate) s).2 =
           [To target (MsgIceCandidate sid candidate)]).
Proof.
  intros [sock Hc] Hne Hevs2 s. split.
  - intros m. unfold recipients.
    rewrite elem_of_difference, elem_of_singleton. split; [|done].
    subst s. rewrite app_assoc, run_app.
    apply members_kept_by_events; [done|].
    rewrite run_snoc. simpl. unfold handle. rewrite Hc. unfold members.
    simpl. rewrite members_sio_join, decide_True by done.
    apply elem_of_union. left. by apply elem_of_singleton.
  - intros [sock' Hsid] offer answer candidate. unfold handle.
    by rewrite Hsid.
Qed.

Lemma join_of_room_named_by_connection_overhears_witness :
  let evs :=
    [("A", EvConnection); ("B", EvConnection); ("C", EvConnection)]
    ++ [("C", EvJoinRoom "A" "carol")]
    ++ [("B", EvJoinRoom "r1" "bob"); ("C", EvJoinRoom "r1" "carol");
        ("B", EvLeaveRoom)] in
  "C" ∈ recipients (run evs) "B"
          (To "A" (MsgOffer "B" {| sdpType := SdpOffer; sdp := "v=0" |})).
Proof.
  apply (join_of_room_named_by_connection_overhears
           [("A", EvConnection); ("B", EvConnection); ("C", EvConnection)]
           [("B", EvJoinRoom "r1" "bob"); ("C", EvJoinRoom "r1" "carol");
            ("B", EvLeaveRoom)] "C" "B" "A" "carol").
  - eexists. by vm_compute.
  - done.
  - repeat (apply Forall_cons; split; [simpl; by intros ?|]).
    apply Forall_nil_2.
Defined.

(** An entry of the registry was put there by a [join-room] of its
    connection naming that room. *)
Lemma registry_history evs c r :
  c ∈ JSMap.keys (participantsOf (run evs) r) → joined evs c r.
Proof.
  revert c r. induction evs as [|[sid ev] evs IH] using rev_ind;
    intros c r.
  - unfold participantsOf, run. simpl. rewrite lookup_empty. simpl.
    intros Hin. by apply not_elem_of_nil in Hin.
  - rewrite run_snoc. simpl. unfold handle.
    destruct (sockets (run evs) !! sid) as [sock|] eqn:Hsid.
    + destruct ev as [|rj nj| | | |rt b rest|rt b rest| | |];
        try (intros Hin; by apply joined_snoc, IH).
      * rewrite participantsOf_join. case_decide as Hr.
        -- subst r. rewrite elem_of_keys_set. intros [->|Hin].
           ++ apply joined_last.
           ++ by apply joined_snoc, IH.
        -- intros Hin. by apply joined_snoc, IH.
      * rewrite on_toggle_audio_keys. intros Hin. by apply joined_snoc, IH.
      * rewrite on_toggle_video_keys. intros Hin. by apply joined_snoc, IH.
      * unfold on_disconnect.
        destruct (currentRoom sock (run evs)) as [[r0 room0]|] eqn:Hcur;
          [|intros Hin; by apply joined_snoc, IH].
        apply currentRoom_Some in Hcur as (_ & _ & Hroom0).
        unfold participantsOf at 1. simpl.
        rewrite (participantsOf_remove _ _ _ _ _ Hroom0).
        case_decide as Hr.
        -- subst r. rewrite elem_of_keys_delete. intros [_ Hin].
           apply joined_snoc, IH. unfold participantsOf.
           by rewrite Hroom0.
        -- intros Hin. by apply joined_snoc, IH.
      * unfold on_leave_room.
        destruct (currentRoom sock (run evs)) as [[r0 room0]|] eqn:Hcur;
          [|intros Hin; by apply joined_snoc, IH].
        apply currentRoom_Some in Hcur as (_ & _ & Hroom0).
        unfold participantsOf at 1. simpl.
        rewrite (participantsOf_remove _ _ _ _ _ Hroom0).
        case_decide as Hr.
        -- subst r. rewrite elem_of_keys_delete. intros [_ Hin].
           apply joined_snoc, IH. unfold participantsOf.
           by rewrite Hroom0.
        -- intros Hin. by apply joined_snoc, IH.
    + destruct ev; intros Hin; by apply joined_snoc, IH.
Qed.

(** X23: the relay checks membership for toggles but not for chat.  From
    an open connection that never joined room [r], a toggle naming [r] is
    ignored, while a chat message naming [r] is relayed to every
    connection in [r]. *)
Theorem chat_needs_no_membership evs sid r message b rest :
  is_Some (sockets (run evs) !! sid) → ¬ joined evs sid r → sid ≠ r →
  let s := run evs in
  handle sid (EvToggleAudio r b rest) s = (s, [])
  ∧ handle sid (EvToggleVideo r b rest) s = (s, [])
  ∧ handle sid (EvChatMessage r message) s =
      (s, [To r (MsgChatMessage message)])
  ∧ recipients s sid (To r (MsgChatMessage message)) = members s r.
Proof.
  intros [sock Hsid] Hnever Hne s. subst s. unfold handle. rewrite Hsid.
  assert (JSMap.get sid (participantsOf (run evs) r) = None) as Hnone.
  { apply jsmap_get_None. intros Hin. by apply Hnever, registry_history. }
  split_and!.
  - unfold on_toggle_audio. unfold participantsOf in Hnone.
    destruct (rooms (run evs) !! r); [|done]. simpl in Hnone.
    by rewrite Hnone.
  - unfold on_toggle_video. unfold participantsOf in Hnone.
    destruct (rooms (run evs) !! r); [|done]. simpl in Hnone.
    by rewrite Hnone.
  - done.
  - unfold recipients. apply difference_disjoint_L.
    apply disjoint_singleton_r. intros Hin.
    destruct (adapter_history evs) as (H1 & _ & _).
    destruct (H1 sid r Hin) as [_ [?|?]]; done.
Qed.

Lemma chat_needs_no_membership_witness :
  let evs := [("A", EvConnection); ("A", EvJoinRoom "r1" "alice");
              ("C", EvConnection)] in
  let message :=
    ChatMessage.make "1" "current-user" "You" "hello" 1700000000000 in
  handle "C" (EvChatMessage "r1" message) (run evs) =
    (run evs, [To "r1" (MsgChatMessage message)])
  ∧ recipients (run evs) "C" (To "r1" (MsgChatMessage message)) = {["A"]}.
Proof.
  intros evs message.
  destruct (chat_needs_no_membership evs "C" "r1" message false [])
    as (_ & _ & Hchat & Hto).
  - eexists. by vm_compute.
  - intros [n Hin]. subst evs.
    repeat (apply elem_of_cons in Hin as [Hin|Hin]; [done|]).
    by apply not_elem_of_nil in Hin.
  - done.
  - split; [exact Hchat|]. rewrite Hto. by vm_compute.
Defined.

(** ** A join undone *)

Lemma currentRoom_joined sid r n s :
  r ≠ "" →
  currentRoom {| userName := Some n; Server.roomId := Some r |}
    (on_join_room sid r n s).1 =
    Some (r, JSMap.set sid (newParticipant sid n) (participantsOf s r)).
Proof.
  intros Hr. unfold currentRoom.
  pose proof (on_join_room_rooms sid r n s r) as Hroom.
  rewrite decide_True in Hroom by done.
  cbn [Server.roomId Server.truthy]. rewrite bool_decide_true by done.
  cbn [mbind option_bind]. by rewrite Hroom.
Qed.

Lemma registry_after_join_and_removal evs sid r n :
  JSMap.get sid (participantsOf (run evs) r) = None →
  removeParticipant sid r
    (JSMap.set sid (newParticipant sid n) (participantsOf (run evs) r))
    (rooms (on_join_room sid r n (run evs)).1) = rooms (run evs).
Proof.
  intros Hfresh. apply map_eq. intros r'.
  rewrite removeParticipant_lookup, jsmap_delete_set_fresh by done.
  destruct (decide (r' = r)) as [->|Hr'].
  - unfold participantsOf.
    destruct (rooms (run evs) !! r) as [room|] eqn:Hroom; simpl.
    + rewrite decide_False; [done|].
      by eapply registry_has_no_empty_room.
    + done.
  - by rewrite on_join_room_rooms, decide_False.
Qed.

(** X10: a join followed by the same connection's [leave-room], or by its
    disconnect, leaves the registry as it was before the join, when the
    room id is not empty and the connection had no entry in that room:
    a room the join created is deleted again, and a room that existed
    keeps its entries, their flags and their order. *)
Theorem join_then_leave_restores_registry evs sid sock r n :
  sockets (run evs) !! sid = Some sock → r ≠ "" →
  JSMap.get sid (participantsOf (run evs) r) = None →
  let s1 := (handle sid (EvJoinRoom r n) (run evs)).1 in
  handle sid EvLeaveRoom s1 =
    ({| rooms := rooms (run evs);
        adapter := sio_leave sid r (adapter s1);
        sockets := sockets s1 |},
     [To r (MsgUserLeft sid)])
  ∧ handle sid EvDisconnect s1 =
      ({| rooms := rooms (run evs);
          adapter := sio_leave_all sid (adapter s1);
          sockets := delete sid (sockets s1) |},
       [To r (MsgUserLeft sid)]).
Proof.
  intros Hsock Hr Hfresh s1.
  assert (s1 = (on_join_room sid r n (run evs)).1) as Hs1.
  { unfold s1, handle. by rewrite Hsock. }
  assert (sockets s1 !! sid =
            Some {| userName := Some n; Server.roomId := Some r |}) as Hsock1.
  { rewrite Hs1. simpl. by rewrite lookup_insert_eq. }
  pose proof (currentRoom_joined sid r n (run evs) Hr) as Hcur.
  rewrite <-Hs1 in Hcur. split.
  - rewrite (handle_leave_room _ _ _ _ _ Hsock1 Hcur). rewrite Hs1 at 1.
    by rewrite registry_after_join_and_removal.
  - rewrite (handle_disconnect _ _ _ _ _ Hsock1 Hcur). rewrite Hs1 at 1.
    by rewrite registry_after_join_and_removal.
Qed.

Lemma join_then_leave_restores_registry_witness :
  let evs := [("A", EvConnection); ("A", EvJoinRoom "r1" "alice");
              ("B", EvConnection)] in
  let s1 := (handle "B" (EvJoinRoom "r1" "bob") (run evs)).1 in
  rooms (handle "B" EvLeaveRoom s1).1 = rooms (run evs).
Proof.
  intros evs s1.
  destruct (join_then_leave_restores_registry evs "B"
              {| userName := None; Server.roomId := None |} "r1" "bob")
    as [Hleave _]; [by vm_compute | done | by vm_compute |].
  fold s1 in Hleave. by rewrite Hleave.
Defined.

(** ** Start-up *)

Lemma scanInterface_filter l :
  Startup.scanInterface l =
    Startup.address <$>
      head (filter (λ net, Startup.family net = "IPv4"
                           ∧ Startup.internal net = false) l).
Proof.
  induction l as [|net l IH]; simpl; [done|]. rewrite filter_cons.
  destruct (decide (Startup.family net = "IPv4")) as [Hf|Hf];
    destruct (Startup.internal net) eqn:Hi; simpl.
  - rewrite bool_decide_true by done. simpl.
    rewrite decide_False by (by intros [_ ?]). exact IH.
  - rewrite bool_decide_true by done. simpl.
    by rewrite decide_True.
  - rewrite bool_decide_false by done. simpl.
    rewrite decide_False by (by intros [? _]). exact IH.
  - rewrite bool_decide_false by done. simpl.
    rewrite decide_False by (by intros [? _]). exact IH.
Qed.

(** X11: the address the relay announces at start-up is the address of
    the first interface entry, in the order the interfaces and their
    entries are enumerated, that is IPv4 and not internal; it is
    [localhost] exactly when there is no such entry or that entry's
    address is [localhost]. *)
Theorem getLocalIP_first_external_IPv4 nets :
  Startup.getLocalIP nets =
    default "localhost"
      (Startup.address <$>
         head (filter (λ net, Startup.family net = "IPv4"
                              ∧ Startup.internal net = false)
                 (concat nets.*2))).
Proof.
  induction nets as [|[name l] nets IH]; simpl; [done|].
  rewrite filter_app, scanInterface_filter.
  destruct (filter _ l) as [|net l']; simpl; [exact IH | done].
Qed.

(** ** The client's handlers *)

Lemma jsmap_keys_set_present {V} k (v w : V) m :
  JSMap.get k m = Some v → JSMap.keys (JSMap.set k w m) = JSMap.keys m.
Proof.
  intros Hget. rewrite jsmap_keys_set. unfold JSMap.has. by rewrite Hget.
Qed.

Lemma jsmap_delete_absent {V} k (m : JSMap.t V) :
  JSMap.get k m = None → JSMap.delete k m = m.
Proof.
  induction m as [|[k' w] m IH]; simpl; [done|].
  case_decide as Hk; [done|]. intros Hget. by rewrite IH.
Qed.

Lemma try_catch_returns body handler cs :
  (∀ cs', (handler cs').1 = Returned ()) →
  (try_catch body handler cs).1 = Returned ().
Proof.
  intros Hh. unfold try_catch. destruct (body cs) as [[[]|] cs']; [done|].
  apply Hh.
Qed.

Lemma bind_returns {A} (m : M A) (k : A → M unit) cs :
  (∀ cs', ∃ a, (m cs').1 = Returned a) →
  (∀ a cs', (k a cs').1 = Returned ()) →
  ((m ≫= k) cs).1 = Returned ().
Proof.
  intros Hm Hk. destruct (Hm cs) as [a Ha].
  rewrite (bind_returned m k cs a Ha). apply Hk.
Qed.

Lemma forEach_returns {A} (l : list A) (f : A → M unit) cs :
  (∀ x cs', (f x cs').1 = Returned ()) →
  (forEach l f cs).1 = Returned ().
Proof.
  intros Hf. revert cs. induction l as [|x l IH]; intros cs; [done|].
  simpl. rewrite (bind_returned (f x) _ cs ()) by apply Hf. apply IH.
Qed.

Lemma when_returns b (m : M unit) cs :
  (m cs).1 = Returned () → (when b m cs).1 = Returned ().
Proof. by destruct b. Qed.

Section HandlerFacts.
Context (browser : Browser).

Lemma updateStream_returns stream entry cs :
  (updateStream browser stream entry cs).1 = Returned ().
Proof. destruct entry as [k pc]. apply try_catch_log_returns. Qed.

Lemma updatePeerConnectionStreams_returns cs :
  (updatePeerConnectionStreams browser cs).1 = Returned ().
Proof.
  unfold updatePeerConnectionStreams, gets, mbind, M_bind. simpl.
  destruct (localStreamRef cs) as [stream|]; [|done].
  apply forEach_returns. intros. apply updateStream_returns.
Qed.

Lemma initializeMedia_returns cs :
  (initializeMedia browser cs).1 = Returned ().
Proof.
  apply try_catch_returns. intros cs'.
  rewrite (bind_returned (log ErrorAccessingMedia) _ cs' ()) by done.
  apply try_catch_log_returns.
Qed.

(** X12: the provider catches what the browser throws, with one
    exception.  Every event of the relay is taken to the end, and so is
    every call the pages make, every effect, and the [ontrack],
    [onicecandidate] and [oniceconnectionstatechange] callbacks, whatever
    the browser refuses.  The exception is [onconnectionstatechange]: it
    changes nothing, and it ends in an uncaught exception exactly when
    the connection has failed and the browser's [restartIce()] throws. *)
Theorem provider_throws_only_from_restartIce cs :
  (∀ m, (receive browser m cs).1 = Returned ())
  ∧ (∀ participantId streams,
       (ontrack participantId streams cs).1 = Returned ())
  ∧ (∀ participantId candidate,
       (onicecandidate participantId candidate cs).1 = Returned ())
  ∧ (initializeMedia browser cs).1 = Returned ()
  ∧ (∀ roomId userName, (joinRoom roomId userName cs).1 = Returned ())
  ∧ (leaveRoom cs).1 = Returned ()
  ∧ (∀ message now date,
       (sendChatMessage message now date cs).1 = Returned ())
  ∧ (∀ id, (deleteChatMessage id cs).1 = Returned ())
  ∧ (shareScreen browser cs).1 = Returned ()
  ∧ (screenShareEnded browser cs).1 = Returned ()
  ∧ (localStreamEffect browser cs).1 = Returned ()
  ∧ (audioEnabledEffect cs).1 = Returned ()
  ∧ (videoEnabledEffect cs).1 = Returned ()
  ∧ ConnectionCallbacks.oniceconnectionstatechange cs = (Returned (), cs)
  ∧ (∀ restartIce pc,
       (ConnectionCallbacks.onconnectionstatechange restartIce pc cs).2 = cs
       ∧ ((ConnectionCallbacks.onconnectionstatechange restartIce pc cs).1 =
            Thrown
          ↔ connectionState pc = ConnFailed ∧ restartIce = false)).
Proof.
  split_and!.
  - intros [ps|p|userId|sender offer|sender answer|sender candidate
            |participantId b|participantId b|message]; simpl; try done.
    + apply forEach_returns. intros p cs'. apply learn_returns.
    + apply learn_returns.
    + apply try_catch_log_returns.
    + apply try_catch_log_returns.
    + apply try_catch_log_returns.
  - done.
  - intros participantId [c|]; [|done].
    unfold onicecandidate, gets, mbind, M_bind. simpl.
    by destruct (socketRef cs).
  - apply initializeMedia_returns.
  - intros r n. unfold joinRoom, gets, mbind, M_bind. simpl.
    destruct (socketRef cs); simpl; [|done].
    destruct (socketConnected cs); simpl; by rewrite <-?app_assoc.
  - unfold leaveRoom, gets, mbind, M_bind. simpl.
    by destruct (isSome (socketRef cs) && truthy (roomId (state cs))).
  - intros message now date. unfold sendChatMessage, gets, mbind, M_bind.
    simpl. destruct (roomId (state cs)) as [r|]; [|done].
    by destruct (isSome (socketRef cs) && truthy (Some r)).
  - done.
  - apply try_catch_log_returns.
  - unfold screenShareEnded.
    rewrite (bind_returned (initializeMedia browser) _ cs ())
      by apply initializeMedia_returns.
    done.
  - unfold localStreamEffect, gets, mbind, M_bind. simpl.
    apply when_returns, updatePeerConnectionStreams_returns.
  - unfold audioEnabledEffect, gets, mbind, M_bind. simpl.
    destruct (roomId (state cs)) as [r|]; [|done].
    by destruct (isSome (socketRef cs) && truthy (Some r)).
  - unfold videoEnabledEffect, gets, mbind, M_bind. simpl.
    destruct (roomId (state cs)) as [r|]; [|done].
    by destruct (isSome (socketRef cs) && truthy (Some r)).
  - done.
  - intros restartIce pc.
    unfold ConnectionCallbacks.onconnectionstatechange, when.
    case_bool_decide as Hfailed; destruct restartIce; simpl;
      (split; [done|]); split; try done; by intros [? ?].
Qed.

Lemma setPeerConnection_present k pc pc' (m : JSMap.t RTCPeerConnection) :
  JSMap.get k m = Some pc →
  JSMap.keys (JSMap.set k pc' m) = JSMap.keys m
  ∧ ∀ j, j ≠ k → JSMap.get j (JSMap.set k pc' m) = JSMap.get j m.
Proof.
  intros Hget. split; [by eapply jsmap_keys_set_present|].
  intros j Hj. by rewrite jsmap_get_set, decide_False.
Qed.

(** X13: an offer, an answer or a candidate from the relay changes
    nothing but the peer connection stored for its sender: the reducer
    state stays, no peer connection is created or dropped, the
    connections of the other participants are not touched, and the only
    event that can go out is one answer, addressed to the offer's
    sender. *)
Theorem signaling_touches_only_the_senders_connection
    sender offer answer candidate cs :
  let kept cs' :=
    state cs' = state cs
    ∧ localStreamRef cs' = localStreamRef cs
    ∧ JSMap.keys (peerConnections cs') = JSMap.keys (peerConnections cs)
    ∧ ∀ j, j ≠ sender →
        JSMap.get j (peerConnections cs') = JSMap.get j (peerConnections cs)
  in
  let co := (handleOffer browser sender offer cs).2 in
  let ca := (handleAnswer browser sender answer cs).2 in
  let ci := (handleIceCandidate browser sender candidate cs).2 in
  (kept co
   ∧ (outbox co = outbox cs
      ∨ ∃ a, outbox co = outbox cs ++ [EvAnswer sender a]))
  ∧ (kept ca ∧ outbox ca = outbox cs)
  ∧ (kept ci ∧ outbox ci = outbox cs).
Proof.
  intros kept co ca ci. subst kept co ca ci. cbv beta.
  unfold handleAnswer, handleIceCandidate. run_handler.
  destruct (JSMap.get sender (peerConnections cs)) as [pc|] eqn:Hpc;
    [|split_and!; auto].
  assert (∀ pc1 pc2,
            JSMap.keys (JSMap.set sender pc2
                          (JSMap.set sender pc1 (peerConnections cs))) =
              JSMap.keys (peerConnections cs)) as Hkeys2.
  { intros pc1 pc2. rewrite (jsmap_keys_set_present _ pc1).
    - by eapply jsmap_keys_set_present.
    - by rewrite jsmap_get_set, decide_True. }
  pose proof (λ pc1, jsmap_keys_set_present sender pc pc1 _ Hpc) as Hkeys1.
  assert (∀ j pc1, j ≠ sender →
            JSMap.get j (JSMap.set sender pc1 (peerConnections cs)) =
              JSMap.get j (peerConnections cs)) as Hget1.
  { intros j pc1 Hj. by rewrite jsmap_get_set, decide_False. }
  assert (∀ j pc1 pc2, j ≠ sender →
            JSMap.get j (JSMap.set sender pc2
                           (JSMap.set sender pc1 (peerConnections cs))) =
              JSMap.get j (peerConnections cs)) as Hget2.
  { intros j pc1 pc2 Hj. by rewrite !jsmap_get_set, !decide_False. }
  destruct (decide (signalingState pc = SigClosed));
    destruct (decide (connectionState pc = ConnClosed));
    destruct (setRemoteDescription browser pc offer) as [pc1|];
    destruct (setRemoteDescription browser pc answer) as [pc1'|];
    destruct (addIceCandidate browser pc candidate) as [pc1''|];
    simpl;
    try destruct (createAnswer browser pc1) as [a|]; simpl;
    try destruct (setLocalDescription browser pc1 a) as [pc2|]; simpl;
    try destruct (socketRef cs); simpl;
    split_and!; eauto.
Qed.

Lemma filter_fresh_participant (l : list Participant) x :
  (∀ q, q ∈ l → Client.id q ≠ x) →
  filter (λ q, Client.id q ≠ x) l = l.
Proof.
  intros Hfresh. induction l as [|q l IH]; [done|].
  rewrite filter_cons, decide_True by (apply Hfresh, list_elem_of_here).
  f_equal. apply IH. intros q' Hin. by apply Hfresh, list_elem_of_further.
Qed.

(** X14: a participant who joins and leaves again leaves no trace in a
    client that did not know it: after [user-joined] and then [user-left]
    for the same id, the reducer state, the peer connections, the local
    stream and the events sent are what they were, whether or not the
    browser could construct the peer connection. *)
Theorem user_joined_then_left_is_undone p cs :
  (∀ q, q ∈ participants (state cs) → Client.id q ≠ Participant.id p) →
  JSMap.get (Participant.id p) (peerConnections cs) = None →
  let cs' :=
    (receive browser (MsgUserLeft (Participant.id p))
       (receive browser (MsgUserJoined p) cs).2).2 in
  state cs' = state cs
  ∧ peerConnections cs' = peerConnections cs
  ∧ localStreamRef cs' = localStreamRef cs
  ∧ outbox cs' = outbox cs.
Proof.
  intros Hfresh Hnone cs'. subst cs'. simpl.
  unfold on_user_joined, on_user_left. run_handler.
  destruct cs as [st pcs ls sr sc ob co loc]. destruct st. simpl in *.
  destruct (constructs browser); simpl.
  - rewrite filter_app, filter_fresh_participant by done.
    rewrite filter_cons, decide_False by (simpl; by intros ?).
    rewrite filter_nil, app_nil_r, jsmap_delete_set_fresh by done.
    destruct ls; done.
  - rewrite filter_app, filter_fresh_participant by done.
    rewrite filter_cons, decide_False by (simpl; by intros ?).
    rewrite filter_nil, app_nil_r, jsmap_delete_absent by done.
    destruct ls; done.
Qed.

(** X15: deleting a chat message is local: [sendChatMessage] puts the
    message in the transcript and sends it to the room, and
    [deleteChatMessage] of its id sends nothing, so the room keeps the
    message; and the deletion takes every message of the transcript whose
    id is that [Date.now()] value, not only the one just sent. *)
Theorem chat_delete_is_local message now date r sock cs :
  socketRef cs = Some sock → roomId (state cs) = Some r → r ≠ "" →
  let sent :=
    ChatMessage.make (pretty now) "current-user" "You" message date in
  let cs1 := (sendChatMessage message now date cs).2 in
  let cs2 := (deleteChatMessage (pretty now) cs1).2 in
  outbox cs1 = outbox cs ++ [EvChatMessage r sent]
  ∧ chatMessages (state cs1) = chatMessages (state cs) ++ [sent]
  ∧ outbox cs2 = outbox cs1
  ∧ chatMessages (state cs2) =
      filter (λ m, ChatMessage.id m ≠ pretty now) (chatMessages (state cs)).
Proof.
  intros Hsock Hroom Hr sent cs1 cs2. subst sent cs1 cs2.
  unfold sendChatMessage, deleteChatMessage. run_handler.
  rewrite Hsock, Hroom. simpl. rewrite bool_decide_true by done. simpl.
  split_and!; try done.
  rewrite filter_app, filter_cons, decide_False by (simpl; by intros ?).
  by rewrite filter_nil, app_nil_r.
Qed.

(** X16: [initializeMedia] asks for the camera at most twice: with the
    preferred constraints, and if that is refused once more with the
    plain ones; the stream it is granted becomes the local stream as the
    browser delivered it, while the two mute flags keep their values; if
    both requests are refused the local stream stays what it was and both
    failures are reported.  It sends nothing and touches no peer
    connection. *)
Theorem initializeMedia_falls_back_once cs :
  let cs' := (initializeMedia browser cs).2 in
  let granted stream logged :=
    localStreamRef cs' = Some stream
    ∧ localStream (state cs') = Some stream
    ∧ console cs' = console cs ++ logged in
  isAudioEnabled (state cs') = isAudioEnabled (state cs)
  ∧ isVideoEnabled (state cs') = isVideoEnabled (state cs)
  ∧ peerConnections cs' = peerConnections cs
  ∧ outbox cs' = outbox cs
  ∧ match getUserMedia browser true, getUserMedia browser false with
    | Some stream, _ => granted stream []
    | None, Some stream => granted stream [ErrorAccessingMedia]
    | None, None =>
        localStreamRef cs' = localStreamRef cs
        ∧ localStream (state cs') = localStream (state cs)
        ∧ console cs' = console cs
                        ++ [ErrorAccessingMedia; FallbackMediaAccessFailed]
    end.
Proof.
  intros cs' granted. subst cs' granted. cbv beta.
  unfold initializeMedia. run_handler.
  destruct (getUserMedia browser true) as [stream|]; simpl.
  - rewrite app_nil_r. by split_and!.
  - destruct (getUserMedia browser false) as [stream|]; simpl.
    + by split_and!.
    + rewrite <-app_assoc. by split_and!.
Qed.

Lemma renegotiates_refl cs : renegotiates cs cs.
Proof.
  split_and!; try done. exists []. rewrite app_nil_r.
  split; [done | apply Forall_nil_2].
Qed.

Lemma renegotiates_trans cs1 cs2 cs3 :
  renegotiates cs1 cs2 → renegotiates cs2 cs3 → renegotiates cs1 cs3.
Proof.
  intros (Hp & Hr & Hc & Hk & evs & Ho & Hevs)
         (Hp' & Hr' & Hc' & Hk' & evs' & Ho' & Hevs').
  split_and!; try congruence. exists (evs ++ evs').
  rewrite Ho', Ho, app_assoc. split; [done|].
  apply Forall_app. split; [done|]. by rewrite <-Hk.
Qed.

Lemma renegotiates_frame cs cs' :
  participants (state cs') = participants (state cs) →
  roomId (state cs') = roomId (state cs) →
  chatMessages (state cs') = chatMessages (state cs) →
  JSMap.keys (peerConnections cs') = JSMap.keys (peerConnections cs) →
  outbox cs' = outbox cs →
  renegotiates cs cs'.
Proof.
  intros Hp Hr Hc Hk Ho. split_and!; try done.
  exists []. rewrite app_nil_r. split; [done | apply Forall_nil_2].
Qed.

Lemma updateStream_renegotiates stream k pc pc0 cs :
  JSMap.get k (peerConnections cs) = Some pc0 →
  renegotiates cs (updateStream browser stream (k, pc) cs).2.
Proof.
  intros Hk.
  assert (k ∈ JSMap.keys (peerConnections cs)) as Hin.
  { apply jsmap_get_is_Some. by eexists. }
  assert (∀ pc1 pc2,
            JSMap.keys (JSMap.set k pc2
                          (JSMap.set k pc1 (peerConnections cs))) =
              JSMap.keys (peerConnections cs)) as Hkeys2.
  { intros pc1 pc2. rewrite (jsmap_keys_set_present _ pc1).
    - by eapply jsmap_keys_set_present.
    - by rewrite jsmap_get_set, decide_True. }
  pose proof (λ pc1, jsmap_keys_set_present k pc0 pc1 _ Hk) as Hkeys1.
  assert (∀ o, only_offers_to (JSMap.keys (peerConnections cs))
                 [EvOffer k o]) as Hoffer.
  { intros o. apply Forall_cons. split; [by exists k, o|].
    apply Forall_nil_2. }
  unfold updateStream. run_handler.
  destruct (bool_decide (signalingState pc = SigClosed)
            && negb (bool_decide (senders pc = [] ∧ stream = []))); simpl.
  { by apply renegotiates_frame. }
  destruct (createOffer browser (with_senders stream pc)) as [offer|];
    simpl; [|apply renegotiates_frame; simpl; auto].
  destruct (setLocalDescription browser (with_senders stream pc) offer)
    as [pc'|]; simpl; [|apply renegotiates_frame; simpl; auto].
  destruct (socketRef cs); simpl; [|apply renegotiates_frame; simpl; auto].
  split_and!; simpl; auto. by exists [EvOffer k offer].
Qed.

Lemma forEach_updateStream_renegotiates stream l cs :
  (∀ e, e ∈ l → e.1 ∈ JSMap.keys (peerConnections cs)) →
  renegotiates cs (forEach l (updateStream browser stream) cs).2.
Proof.
  revert cs. induction l as [|[k pc] l IH]; intros cs Hl.
  - apply renegotiates_refl.
  - simpl forEach.
    rewrite (bind_returned (updateStream browser stream (k, pc)) _ cs ())
      by apply updateStream_returns.
    assert (is_Some (JSMap.get k (peerConnections cs))) as [pc0 Hk].
    { apply jsmap_get_is_Some. apply (Hl (k, pc)). apply list_elem_of_here. }
    pose proof (updateStream_renegotiates stream k pc pc0 cs Hk) as Hstep.
    eapply renegotiates_trans; [exact Hstep|]. apply IH.
    intros e He. destruct Hstep as (_ & _ & _ & -> & _).
    by apply Hl, list_elem_of_further.
Qed.

Lemma updatePeerConnectionStreams_renegotiates cs :
  renegotiates cs (updatePeerConnectionStreams browser cs).2.
Proof.
  unfold updatePeerConnectionStreams, gets, mbind, M_bind. simpl.
  destruct (localStreamRef cs) as [stream|]; [|apply renegotiates_refl].
  apply forEach_updateStream_renegotiates. intros e He.
  unfold JSMap.keys. apply list_elem_of_fmap. by exists e.
Qed.

Lemma switchSource_renegotiates sharing cs :
  renegotiates cs (switchSource browser sharing cs).2.
Proof.
  unfold switchSource, initializeMedia. run_handler.
  destruct sharing; simpl.
  - destruct (getUserMedia browser true); simpl;
      [by apply renegotiates_frame|].
    destruct (getUserMedia browser false); simpl;
      by apply renegotiates_frame.
  - destruct (getDisplayMedia browser) as [screen|]; simpl;
      [|by apply renegotiates_frame].
    destruct (bool_decide _); simpl; by apply renegotiates_frame.
Qed.

(** X17: renegotiation never changes who is in the call: when the local
    stream changes hands ([updatePeerConnectionStreams], run by
    [shareScreen] and by the effect on the local stream), the participant
    list, the room and the transcript stay, no peer connection is created
    or dropped, and all that is sent are offers to participants the
    client already has a connection with.  Without a local stream nothing
    happens at all, and a screen capture the browser refuses leaves
    everything as it was but for the report on the console. *)
Theorem renegotiation_keeps_the_peers cs :
  renegotiates cs (updatePeerConnectionStreams browser cs).2
  ∧ renegotiates cs (localStreamEffect browser cs).2
  ∧ renegotiates cs (shareScreen browser cs).2
  ∧ (localStreamRef cs = None →
     updatePeerConnectionStreams browser cs = (Returned (), cs))
  ∧ (isScreenSharing (state cs) = false → getDisplayMedia browser = None →
     shareScreen browser cs =
       (Returned (), with_console (console cs ++ [ErrorSharingScreen]) cs)).
Proof.
  split_and!.
  - apply updatePeerConnectionStreams_renegotiates.
  - unfold localStreamEffect, gets, mbind, M_bind, when. simpl.
    destruct (isSome (localStreamRef cs) && _);
      [apply updatePeerConnectionStreams_renegotiates
      |apply renegotiates_refl].
  - unfold shareScreen, try_catch, gets, mbind, M_bind. simpl.
    pose proof (switchSource_renegotiates (isScreenSharing (state cs)) cs)
      as Hswitch.
    destruct (switchSource browser (isScreenSharing (state cs)) cs)
      as [[[]|] cs1]; simpl in *.
    + pose proof (updatePeerConnectionStreams_renegotiates cs1) as Hupd.
      pose proof (updatePeerConnectionStreams_returns cs1) as Hret.
      destruct (updatePeerConnectionStreams browser cs1) as [[[]|] cs2];
        simpl in *; [|done].
      by eapply renegotiates_trans.
    + eapply renegotiates_trans; [exact Hswitch|].
      by apply renegotiates_frame.
  - intros Hnone. unfold updatePeerConnectionStreams, gets, mbind, M_bind.
    simpl. by rewrite Hnone.
  - intros Hoff Hrefused. unfold shareScreen, switchSource. run_handler.
    by rewrite Hoff, Hrefused.
Qed.

(** X22: entering a room does not depend on the camera: [initRoom] of
    the room page sends the join (connecting the socket first if it is not
    connected) and records the room whatever the browser answers to the
    two media requests; when both are refused the client joins with no
    local stream.  Without a socket nothing is sent and no room is
    recorded. *)
Theorem entering_a_room_does_not_need_the_camera r n cs :
  let cs' := (RoomPage.initRoom browser r n cs).2 in
  (RoomPage.initRoom browser r n cs).1 = Returned ()
  ∧ peerConnections cs' = peerConnections cs
  ∧ match socketRef cs with
    | Some _ =>
        outbox cs' =
          outbox cs ++ (if socketConnected cs then [] else [EvConnection])
          ++ [EvJoinRoom r n]
        ∧ roomId (state cs') = Some r
    | None =>
        outbox cs' = outbox cs ∧ roomId (state cs') = roomId (state cs)
    end
  ∧ (getUserMedia browser true = None →
     getUserMedia browser false = None →
     localStreamRef cs' = localStreamRef cs).
Proof.
  intros cs'. subst cs'.
  unfold RoomPage.initRoom, initializeMedia, joinRoom. run_handler.
  destruct (getUserMedia browser true) as [stream|]; simpl.
  - destruct (socketRef cs); simpl;
      [|split_and!; try done; by intros ? ?].
    destruct (socketConnected cs); simpl; rewrite <-?app_assoc;
      split_and!; try done; intros ? ?; try done; by destruct (localStreamRef cs).
  - destruct (getUserMedia browser false) as [stream|]; simpl.
    + destruct (socketRef cs); simpl;
      [|split_and!; try done; by intros ? ?].
      destruct (socketConnected cs); simpl; rewrite <-?app_assoc;
      split_and!; try done; intros ? ?; try done; by destruct (localStreamRef cs).
    + destruct (socketRef cs); simpl;
      [|split_and!; try done; by intros ? ?].
      destruct (socketConnected cs); simpl; rewrite <-?app_assoc;
      split_and!; try done; intros ? ?; try done; by destruct (localStreamRef cs).
Qed.

(** ** A session end to end *)

Lemma createPeerConnection_state participantId shouldCreateOffer cs :
  state (createPeerConnection browser participantId shouldCreateOffer cs).2 =
    state cs.
Proof.
  run_handler. destruct (constructs browser); simpl; [|done].
  destruct shouldCreateOffer; simpl; [|done].
  match goal with
  | |- context [createOffer browser ?pc] =>
      destruct (createOffer browser pc) as [offer|]; simpl; [|done];
      destruct (setLocalDescription browser pc offer); simpl; [|done]
  end.
  by destruct (socketRef cs).
Qed.

Lemma learn_participants participant shouldCreateOffer cs :
  participants
    (state ((dispatch (ADD_PARTICIPANT (fromWire participant)) ;;
             createPeerConnection browser (Participant.id participant)
               shouldCreateOffer) cs).2) =
    participants (state cs) ++ [fromWire participant].
Proof.
  erewrite bind_returned by (by rewrite dispatch_returns).
  by rewrite createPeerConnection_state, dispatch_returns.
Qed.

Lemma on_existing_participants_participants ps cs :
  participants (state (on_existing_participants browser ps cs).2) =
    participants (state cs) ++ (fromWire <$> ps).
Proof.
  unfold on_existing_participants. revert cs.
  induction ps as [|p ps IH]; intros cs.
  - simpl. by rewrite app_nil_r.
  - simpl forEach. erewrite bind_returned by apply learn_returns.
    rewrite IH, learn_participants, fmap_cons, <-app_assoc. done.
Qed.

(** Who is delivered what of a join. *)
Lemma delivered_join evs s' sid r n c :
  delivered s' sid c (on_join_room sid r n (run evs)).2 =
    if decide (c = sid)
    then (if decide (others sid (participantsOf (run evs) r) = [])
          then []
          else [MsgExistingParticipants
                  (others sid (participantsOf (run evs) r))])
    else if decide (c ∈ members s' r)
         then [MsgUserJoined (newParticipant sid n)]
         else [].
Proof.
  rewrite on_join_room_emissions. unfold delivered.
  rewrite filter_app, fmap_app.
  assert (∀ m, c ∈ recipients s' sid (Emit m) ↔ c = sid) as Hemit.
  { intros m. simpl. apply elem_of_singleton. }
  assert (∀ m, c ∈ recipients s' sid (To r m) ↔ c ∈ members s' r ∧ c ≠ sid)
    as Hto.
  { intros m. simpl. by rewrite elem_of_difference, elem_of_singleton. }
  destruct (decide (c = sid)) as [->|Hc].
  - rewrite (filter_cons_False _ (To r _)) by (rewrite Hto; tauto).
    rewrite filter_nil, app_nil_r.
    case_decide; [done|]. by rewrite filter_cons_True by (by rewrite Hemit).
  - assert (filter (λ e, c ∈ recipients s' sid e)
              (if decide (others sid (participantsOf (run evs) r) = [])
               then []
               else [Emit (MsgExistingParticipants
                             (others sid (participantsOf (run evs) r)))]) =
            []) as ->.
    { case_decide; [done|].
      by rewrite filter_cons_False by (rewrite Hemit; done). }
    simpl. case_decide as Hin.
    + by rewrite filter_cons_True by (rewrite Hto; done).
    + by rewrite filter_cons_False by (rewrite Hto; tauto).
Qed.

(** X18: a join introduces both sides to each other.  The joiner's
    participant list grows by the records the room's map holds under the
    other connections, in the map's order and with the flags the relay
    has; the list of every other connection in the socket.io room grows by
    the joiner's record, with both flags on; a connection outside the
    room is sent nothing. *)
Theorem join_introduces_both_sides evs sid r n c cs :
  let s' := (on_join_room sid r n (run evs)).1 in
  let out := (on_join_room sid r n (run evs)).2 in
  let joiner := receiveAll browser (delivered s' sid sid out) cs in
  let other := receiveAll browser (delivered s' sid c out) cs in
  participants (state joiner) =
    participants (state cs)
    ++ (fromWire <$> others sid (participantsOf (run evs) r))
  ∧ (c ≠ sid →
     if decide (c ∈ members s' r)
     then participants (state other) =
            participants (state cs) ++ [fromWire (newParticipant sid n)]
     else delivered s' sid c out = []).
Proof.
  intros s' out joiner other. subst joiner other out.
  rewrite !delivered_join. split.
  - rewrite decide_True by done. case_decide as Hnil; simpl.
    + by rewrite Hnil, app_nil_r.
    + apply on_existing_participants_participants.
  - intros Hc. destruct (decide (c = sid)) as [?|_]; [done|].
    case_decide; [|done]. simpl. unfold on_user_joined.
    apply learn_participants.
Qed.

Lemma setEnabled_kind k v stream :
  Forall (λ t, kind t = k → enabled t = v) (setEnabled k v stream)
  ∧ Forall2 (λ t t', kind t' = kind t
                     ∧ ended t' = ended t
                     ∧ (kind t ≠ k → enabled t' = enabled t))
      stream (setEnabled k v stream).
Proof.
  unfold setEnabled. induction stream as [|t stream [IH1 IH2]].
  - split; constructor.
  - rewrite fmap_cons. split.
    + apply Forall_cons. split; [|exact IH1].
      by destruct k, t as [[] ? ?].
    + apply Forall2_cons. split; [|exact IH2].
      by destruct k, t as [[] ? ?].
Qed.


(** X20: a toggle acts on the tracks of its kind only, and on the one
    stream the state and the ref share: after [TOGGLE_AUDIO] (or
    [TOGGLE_VIDEO]) the state and [localStreamRef] still hold the same
    stream, every track of that kind has [enabled] at the new flag, and
    the tracks of the other kind, the kind of every track and whether it
    has ended are as before. *)
Theorem toggle_switches_tracks_of_its_kind k cs stream :
  localStreamRef cs = Some stream →
  localStream (state cs) = Some stream →
  let action := match k with AudioKind => TOGGLE_AUDIO
                           | VideoKind => TOGGLE_VIDEO end in
  let flagOf st := match k with AudioKind => isAudioEnabled st
                              | VideoKind => isVideoEnabled st end in
  let cs' := (dispatch action cs).2 in
  flagOf (state cs') = negb (flagOf (state cs))
  ∧ ∃ stream',
      localStreamRef cs' = Some stream'
      ∧ localStream (state cs') = Some stream'
      ∧ Forall (λ t, kind t = k → enabled t = flagOf (state cs')) stream'
      ∧ Forall2 (λ t t', kind t' = kind t
                         ∧ ended t' = ended t
                         ∧ (kind t ≠ k → enabled t' = enabled t))
          stream stream'.
Proof.
  intros Href Hstate action flagOf cs'. subst action flagOf cs'. cbv beta.
  destruct k; run_handler; rewrite Href, Hstate; simpl.
  - split; [done|].
    exists (setEnabled AudioKind (negb (isAudioEnabled (state cs))) stream).
    split_and!; try done; apply setEnabled_kind.
  - split; [done|].
    exists (setEnabled VideoKind (negb (isVideoEnabled (state cs))) stream).
    split_and!; try done; apply setEnabled_kind.
Qed.

(** X21: leaving travels end to end.  A client in a room with a socket
    sends [leave-room] when it leaves and forgets the call; the relay
    answers with [user-left] to the room, and every other connection of
    the socket.io room then lists no participant under the leaver's id
    and holds no peer connection for it, while the rest of its list and
    of its connections stay; connections outside the room are sent
    nothing. *)
Theorem leave_reaches_the_room csA sock r s sidA sockA room c csB :
  socketRef csA = Some sock → roomId (state csA) = Some r → r ≠ "" →
  sockets s !! sidA = Some sockA →
  currentRoom sockA s = Some (r, room) →
  c ≠ sidA →
  let csA' := (leaveRoom csA).2 in
  let out := handle sidA EvLeaveRoom s in
  let csB' := receiveAll browser (delivered out.1 sidA c out.2) csB in
  outbox csA' = outbox csA ++ [EvLeaveRoom]
  ∧ participants (state csA') = []
  ∧ peerConnections csA' = []
  ∧ roomId (state csA') = None
  ∧ (if decide (c ∈ members s r)
     then participants (state csB') =
            filter (λ q, Client.id q ≠ sidA) (participants (state csB))
          ∧ JSMap.get sidA (peerConnections csB') = None
          ∧ (∀ j, j ≠ sidA →
               JSMap.get j (peerConnections csB') =
                 JSMap.get j (peerConnections csB))
          ∧ outbox csB' = outbox csB
     else csB' = csB).
Proof.
  intros Hsock Hroom Hr HsockA Hcur Hc csA' out csB'.
  subst csA' out csB'.
  rewrite (handle_leave_room _ _ _ _ _ HsockA Hcur).
  unfold leaveRoom. run_handler. rewrite Hsock, Hroom. simpl.
  rewrite bool_decide_true by done. simpl. split_and!; try done.
  unfold delivered. case_decide as Hin.
  - rewrite filter_cons_True.
    2:{ simpl. unfold members in *. simpl.
        rewrite members_sio_leave, decide_True by done.
        rewrite !elem_of_difference, elem_of_singleton. done. }
    simpl. unfold on_user_left. run_handler. split_and!; try done.
    + by rewrite jsmap_get_delete, decide_True.
    + intros j Hj. by rewrite jsmap_get_delete, decide_False.
  - rewrite filter_cons_False; [done|]. simpl. unfold members in *. simpl.
    rewrite members_sio_leave, decide_True by done.
    rewrite !elem_of_difference. tauto.
Qed.

End HandlerFacts.

Lemma user_joined_then_left_is_undone_witness :
  let p := Participant.make "B" "bob" true true in
  let cs' :=
    (receive willingBrowser (MsgUserLeft "B")
       (receive willingBrowser (MsgUserJoined p) readyClient).2).2 in
  state cs' = state readyClient
  ∧ peerConnections cs' = peerConnections readyClient.
Proof.
  intros p cs'.
  destruct (user_joined_then_left_is_undone willingBrowser p readyClient)
    as (Hstate & Hpcs & _).
  - intros q Hin. by apply not_elem_of_nil in Hin.
  - reflexivity.
  - split; [exact Hstate | exact Hpcs].
Defined.

Lemma chat_delete_is_local_witness :
  let cs := (joinRoom "r1" "alice" readyClient).2 in
  let cs1 := (sendChatMessage "hello" 1700000000000 1700000000000 cs).2 in
  let cs2 := (deleteChatMessage (pretty 1700000000000%Z) cs1).2 in
  outbox cs2 = outbox cs1 ∧ chatMessages (state cs2) = [].
Proof.
  intros cs cs1 cs2.
  destruct (chat_delete_is_local "hello" 1700000000000 1700000000000 "r1"
              {| serverUrl := "http://localhost:3001" |} cs)
    as (_ & _ & Hout & Hlog); [reflexivity | reflexivity | done |].
  split; [exact Hout | exact Hlog].
Defined.


Lemma toggle_switches_tracks_of_its_kind_witness :
  let cs := (initializeMedia willingBrowser initialClient).2 in
  let cs' := (dispatch TOGGLE_AUDIO cs).2 in
  isAudioEnabled (state cs') = false
  ∧ ∃ stream',
      localStreamRef cs' = Some stream'
      ∧ localStream (state cs') = Some stream'
      ∧ Forall (λ t, kind t = AudioKind → enabled t = false) stream'.
Proof.
  intros cs cs'.
  destruct (toggle_switches_tracks_of_its_kind AudioKind cs cameraStream)
    as (Hflag & stream' & Href & Hstate & Htracks & _);
    [reflexivity | reflexivity |].
  split; [exact Hflag|]. exists stream'. split_and!; [done | done |].
  exact Htracks.
Defined.

Lemma leave_reaches_the_room_witness :
  let csA := (joinRoom "r1" "alice" readyClient).2 in
  let s := run [("A", EvConnection); ("A", EvJoinRoom "r1" "alice");
                ("B", EvConnection); ("B", EvJoinRoom "r1" "bob")] in
  let csB :=
    (receive willingBrowser
       (MsgExistingParticipants [Participant.make "A" "alice" true true])
       readyClient).2 in
  let out := handle "A" EvLeaveRoom s in
  let csB' :=
    receiveAll willingBrowser (delivered out.1 "A" "B" out.2) csB in
  outbox (leaveRoom csA).2 = outbox csA ++ [EvLeaveRoom]
  ∧ participants (state csB') = []
  ∧ peerConnections csB' = [].
Proof.
  intros csA s csB out csB'.
  destruct (leave_reaches_the_room willingBrowser csA
              {| serverUrl := "http://localhost:3001" |} "r1" s "A"
              {| userName := Some "alice"; Server.roomId := Some "r1" |}
              [("A", Participant.make "A" "alice" true true);
               ("B", Participant.make "B" "bob" true true)] "B" csB)
    as (Hout & _ & _ & _ & Hview);
    [reflexivity | reflexivity | done | by vm_compute | by vm_compute
    | done |].
  split; [exact Hout|]. by vm_compute.
Defined.

(** ** Discovery runs one way *)

Section Discovery.
Context (browser : Browser).

(** C4, as amended: when it learns of participants, a client originates
    offers only toward those listed in [existing-participants], and on
    [user-joined] it sends nothing, whatever the browser does, and keeps
    the peer connection it constructs for the newcomer.  On the relay's
    side a join emits, in this order, [existing-participants] with the
    other records of the room, left out when there are none, and
    [user-joined]; the first goes to the joining connection alone and the
    second to the room without it, and no connection is delivered
    anything else.  So for each join the offers of discovery run one way:
    taking what the join delivers, the joiner's client sends nothing but
    offers to the connections listed, and the client of every other
    connection sends nothing at all.  (A later renegotiation is not
    covered: it offers on every peer connection.) *)
Theorem discovery_offers_only_to_existing_participants
    cs ps participant s history sid roomId userName c :
  let s' := (on_join_room sid roomId userName s).1 in
  let out := (on_join_room sid roomId userName (run history)).2 in
  let after := (on_join_room sid roomId userName (run history)).1 in
  let listed := others sid (participantsOf (run history) roomId) in
  let notice := MsgUserJoined (newParticipant sid userName) in
  (∃ evs,
     outbox (receive browser (MsgExistingParticipants ps) cs).2 =
       outbox cs ++ evs
     ∧ only_offers_to (Participant.id <$> ps) evs)
  ∧ outbox (receive browser (MsgUserJoined participant) cs).2 = outbox cs
  ∧ (constructs browser = true →
     JSMap.has (Participant.id participant)
       (peerConnections (receive browser (MsgUserJoined participant) cs).2)
     = true)
  ∧ Forall
      (λ e, recipients s' sid e =
              if isExistingParticipants e
              then {[sid]}
              else members s' roomId ∖ {[sid]})
      (on_join_room sid roomId userName s).2
  ∧ out = (if decide (listed = [])
           then []
           else [Emit (MsgExistingParticipants listed)])
          ++ [To roomId notice]
  ∧ recipients after sid (Emit (MsgExistingParticipants listed)) = {[sid]}
  ∧ recipients after sid (To roomId notice) =
      members after roomId ∖ {[sid]}
  ∧ delivered after sid c out =
      (if decide (c = sid)
       then (if decide (listed = [])
             then []
             else [MsgExistingParticipants listed])
       else if decide (c ∈ members after roomId) then [notice] else [])
  ∧ (∃ offers,
       outbox (receiveAll browser (delivered after sid sid out) cs) =
         outbox cs ++ offers
       ∧ only_offers_to (Participant.id <$> listed) offers)
  ∧ (c ≠ sid →
     outbox (receiveAll browser (delivered after sid c out) cs) =
       outbox cs).
Proof.
  intros s' out after listed notice. split_and!.
  - apply on_existing_participants_outbox.
  - apply on_user_joined_outbox.
  - apply on_user_joined_outbox.
  - unfold on_join_room. simpl.
    destruct (0 <? _); simpl; repeat (apply Forall_cons; split; [done|]);
      apply Forall_nil_2.
  - apply on_join_room_emissions.
  - done.
  - done.
  - apply delivered_join.
  - subst out after. rewrite delivered_join, decide_True by done.
    fold listed. case_decide as Hnil; simpl.
    + exists []. rewrite app_nil_r. split; [done | apply Forall_nil_2].
    + apply on_existing_participants_outbox.
  - intros Hc. subst out after. rewrite delivered_join.
    rewrite decide_False by done. case_decide; [|done]. simpl.
    apply on_user_joined_outbox.
Qed.

End Discovery.
